(** * The [filter] and [sequenceEqual] operators of RxJS, as state machines

    The two operators are classes derived from [Subscriber].  Each instance is
    modelled by a record holding its fields together with the state of the
    downstream subscriber it pushes into; a method is a function from state to
    state.  The protocol is synchronous: the whole chain of calls caused by one
    notification finishes before the producer issues the next one.  A
    subscription is therefore the fold of the handlers over the list of the
    notifications its sources issue, in the order in which they issue them. *)

From Stdlib Require Import List Bool Arith Lia.
Import ListNotations.

Set Implicit Arguments.

(** ** Outcome of calling user code *)

(** Modelled from the spec: [util/tryCatch] and [util/errorObject] are imported
    by [sequenceEqual.ts] but are not part of the sources.  The design notes
    describe the technique as an explicit discriminated result
    [Ok(value) | Fault(error)]; a user callback is therefore a function into
    [result].  The [try]/[catch] block of [FilterSubscriber._next] is read the
    same way. *)
Inductive result (E A : Type) : Type :=
| Ok (a : A)
| Fault (e : E).

Arguments Ok {E A} a.
Arguments Fault {E A} e.

(** ** The downstream subscriber *)
Module Subscriber.

Section Protocol.
Variables V E : Type.

Inductive notification : Type :=
| Next (v : V)
| Error (e : E)
| Complete.

(** Modelled from the spec: [Subscriber.ts] is not part of the sources.  A
    subscriber holds one flag, [isStopped]; [received] lists what it has passed
    on to the terminal observer. States [Active] and [Stopped]: a [next] in
    [Active] is forwarded, [error] and [complete] are forwarded and stop the
    subscriber, and any notification received while [Stopped] is a no-op. *)
Record t : Type := mk { isStopped : bool; received : list notification }.

Definition fresh : t := mk false [].

(** Modelled from the spec: [Subscriber.next], [Active --next--> Active]. *)
Definition next (v : V) (d : t) : t :=
  if isStopped d then d else mk false (received d ++ [Next v]).

(** Modelled from the spec: [Subscriber.error], [Active --error--> Stopped]. *)
Definition error (e : E) (d : t) : t :=
  if isStopped d then d else mk true (received d ++ [Error e]).

(** Modelled from the spec: [Subscriber.complete],
    [Active --complete--> Stopped]. *)
Definition complete (d : t) : t :=
  if isStopped d then d else mk true (received d ++ [Complete]).
End Protocol.

Arguments Next {V E} v.
Arguments Error {V E} e.
Arguments Complete {V E}.
Arguments fresh {V E}.

End Subscriber.

Import Subscriber.

(** ** [filter] *)
Module Filter.

Section FilterOperator.
Variables T E : Type.

(** [predicate.call(thisArg, value, index)]: the boolean is the truthiness of
    the returned value, [Fault] a raised exception.  [thisArg] only fixes the
    receiver of the call and is part of the function here. *)
Variable predicate : T -> nat -> result E bool.

(** [count] is a JavaScript number that starts at 0 and is only ever
    incremented by one; it is a natural number here (the increments are exact
    below 2^53).  [invoked] is a ghost field: the arguments of every call of
    the predicate so far. *)
Record FilterSubscriber : Type := mkFilter {
  count : nat;
  isStopped : bool;
  destination : Subscriber.t T E;
  invoked : list (T * nat)
}.

Definition init : FilterSubscriber := mkFilter 0 false fresh [].

(** Modelled from the spec: a terminal notification makes the downstream
    subscriber unsubscribe itself, and unsubscription propagates synchronously
    to the upstream subscriber registered as its child, which is stopped. *)
Definition to_destination (f : Subscriber.t T E -> Subscriber.t T E)
           (s : FilterSubscriber) : FilterSubscriber :=
  let d := f (destination s) in
  mkFilter (count s)
           (if Subscriber.isStopped (destination s) then isStopped s
            else if Subscriber.isStopped d then true else isStopped s)
           d (invoked s).

(** [FilterSubscriber._next] *)
Definition _next (value : T) (s : FilterSubscriber) : FilterSubscriber :=
  let index := count s in
  let s1 := mkFilter (S (count s)) (isStopped s) (destination s)
                     (invoked s ++ [(value, index)]) in
  match predicate value index with
  | Fault err => to_destination (Subscriber.error err) s1
  | Ok result =>
      if result then to_destination (Subscriber.next value) s1 else s1
  end.

(** Modelled from the spec: [unsubscribe] stops the subscriber. *)
Definition unsubscribe (s : FilterSubscriber) : FilterSubscriber :=
  mkFilter (count s) true (destination s) (invoked s).

(** Modelled from the spec: the inherited [_error] passes the error on and
    unsubscribes. *)
Definition _error (err : E) (s : FilterSubscriber) : FilterSubscriber :=
  unsubscribe (to_destination (Subscriber.error err) s).

(** Modelled from the spec: the inherited [_complete] passes the completion on
    and unsubscribes. *)
Definition _complete (s : FilterSubscriber) : FilterSubscriber :=
  unsubscribe (to_destination (@Subscriber.complete T E) s).

(** Modelled from the spec: the public [next] of [Subscriber] drops the value
    when [isStopped]. *)
Definition next (value : T) (s : FilterSubscriber) : FilterSubscriber :=
  if isStopped s then s else _next value s.

(** Modelled from the spec: the public [error] of [Subscriber] is a no-op when
    [isStopped]; otherwise it sets the flag and calls [_error]. *)
Definition error (err : E) (s : FilterSubscriber) : FilterSubscriber :=
  if isStopped s then s
  else _error err (mkFilter (count s) true (destination s) (invoked s)).

(** Modelled from the spec: the public [complete] of [Subscriber] is a no-op
    when [isStopped]; otherwise it sets the flag and calls [_complete]. *)
Definition complete (s : FilterSubscriber) : FilterSubscriber :=
  if isStopped s then s
  else _complete (mkFilter (count s) true (destination s) (invoked s)).

(** What the source pushes into the subscriber. *)
Definition handle (n : notification T E) (s : FilterSubscriber) : FilterSubscriber :=
  match n with
  | Next v => next v s
  | Error e => error e s
  | Complete => complete s
  end.

Definition run (ns : list (notification T E)) (s : FilterSubscriber) : FilterSubscriber :=
  fold_left (fun acc n => handle n acc) ns s.

Definition output (s : FilterSubscriber) : list (notification T E) :=
  received (destination s).

(** The subsequence the specification speaks of: the elements on which the
    predicate is truthy, the n-th element being tested with index [i + n]. *)
Definition truthy (x : T) (i : nat) : bool :=
  match predicate x i with Ok b => b | Fault _ => false end.

Fixpoint passing (i : nat) (xs : list T) : list T :=
  match xs with
  | [] => []
  | x :: r => if truthy x i then x :: passing (S i) r else passing (S i) r
  end.

(** The calls an index-counting consumer makes on [xs], starting at [i]. *)
Fixpoint indexed (i : nat) (xs : list T) : list (T * nat) :=
  match xs with
  | [] => []
  | x :: r => (x, i) :: indexed (S i) r
  end.

(** No call of the predicate on [xs], indexed from [i], raises. *)
Fixpoint total_on (i : nat) (xs : list T) : Prop :=
  match xs with
  | [] => True
  | x :: r => (exists b, predicate x i = Ok b) /\ total_on (S i) r
  end.
End FilterOperator.

Arguments init {T E}.

End Filter.

(** ** [sequenceEqual] *)
Module SequenceEqual.

Section SequenceEqualOperator.
Variables T E : Type.

(** [a === b] on the values of the two sources. *)
Variable strict_eq : T -> T -> bool.

(** The optional [comparor]; [tryCatch(comparor)(a, b)] gives its result or
    the fault it raised. *)
Variable comparor : option (T -> T -> result E bool).

(** The coordinator [SequenceEqualSubscriber] with its fields [_a], [_b] and
    [_oneComplete]; [isStopped] is its inherited flag, [compareToStopped] the
    flag of the [SequenceEqualCompareToSubscriber] it created, [destination]
    the downstream subscriber both were built on.  [compared] is a ghost
    field: the pairs whose equality has been evaluated so far, in order. *)
Record SequenceEqualSubscriber : Type := mkSeq {
  _a : list T;
  _b : list T;
  _oneComplete : bool;
  isStopped : bool;
  compareToStopped : bool;
  destination : Subscriber.t bool E;
  compared : list (T * T)
}.

Definition init : SequenceEqualSubscriber :=
  mkSeq [] [] false false false fresh [].

Definition set_buffers (a b : list T) (s : SequenceEqualSubscriber) :=
  mkSeq a b (_oneComplete s) (isStopped s) (compareToStopped s)
        (destination s) (compared s).

Definition set_oneComplete (v : bool) (s : SequenceEqualSubscriber) :=
  mkSeq (_a s) (_b s) v (isStopped s) (compareToStopped s)
        (destination s) (compared s).

Definition set_isStopped (v : bool) (s : SequenceEqualSubscriber) :=
  mkSeq (_a s) (_b s) (_oneComplete s) v (compareToStopped s)
        (destination s) (compared s).

Definition set_compareToStopped (v : bool) (s : SequenceEqualSubscriber) :=
  mkSeq (_a s) (_b s) (_oneComplete s) (isStopped s) v
        (destination s) (compared s).

Definition record_compared (a b : T) (s : SequenceEqualSubscriber) :=
  mkSeq (_a s) (_b s) (_oneComplete s) (isStopped s) (compareToStopped s)
        (destination s) (compared s ++ [(a, b)]).

(** Modelled from the spec: unsubscribing the output propagates synchronously
    to both upstream subscribers, which are stopped. *)
Definition unsubscribe (s : SequenceEqualSubscriber) :=
  set_compareToStopped true (set_isStopped true s).

(** Modelled from the spec: a call on [this.destination].  When the call takes
    the downstream subscriber from [Active] to [Stopped] it unsubscribes
    itself, and with it the two subscribers of this operator. *)
Definition to_destination (f : Subscriber.t bool E -> Subscriber.t bool E)
           (s : SequenceEqualSubscriber) : SequenceEqualSubscriber :=
  let d := f (destination s) in
  let s' := mkSeq (_a s) (_b s) (_oneComplete s) (isStopped s)
                  (compareToStopped s) d (compared s) in
  if Subscriber.isStopped (destination s) then s'
  else if Subscriber.isStopped d then unsubscribe s' else s'.

(** [emit(value)] *)
Definition emit (value : bool) (s : SequenceEqualSubscriber) :=
  to_destination (@Subscriber.complete bool E)
                 (to_destination (Subscriber.next value) s).

(** One evaluation of the equality in [checkValues]: the state after it and
    the truthiness of [areEqual] ([errorObject] is an object, hence truthy). *)
Definition areEqual (a b : T) (s : SequenceEqualSubscriber)
  : SequenceEqualSubscriber * bool :=
  match comparor with
  | Some c =>
      match c a b with
      | Ok r => (s, r)
      | Fault e => (to_destination (Subscriber.error e) s, true)
      end
  | None => (s, strict_eq a b)
  end.

(** The [while] loop of [checkValues] on the two arrays: each round shifts one
    value off each, and the loop has no exit other than its condition. *)
Fixpoint checkValues_loop (a b : list T) (s : SequenceEqualSubscriber)
         {struct a} : SequenceEqualSubscriber :=
  match a, b with
  | x :: a', y :: b' =>
      let s1 := record_compared x y (set_buffers a' b' s) in
      let (s2, eq) := areEqual x y s1 in
      let s3 := if eq then s2 else emit false s2 in
      checkValues_loop a' b' s3
  | _, _ => s
  end.

Definition checkValues (s : SequenceEqualSubscriber) :=
  checkValues_loop (_a s) (_b s) s.

(** [SequenceEqualSubscriber._next] *)
Definition _next (value : T) (s : SequenceEqualSubscriber) :=
  if _oneComplete s && (length (_b s) =? 0) then emit false s
  else checkValues (set_buffers (_a s ++ [value]) (_b s) s).

(** [SequenceEqualSubscriber.nextB] *)
Definition nextB (value : T) (s : SequenceEqualSubscriber) :=
  if _oneComplete s && (length (_a s) =? 0) then emit false s
  else checkValues (set_buffers (_a s) (_b s ++ [value]) s).

(** [SequenceEqualSubscriber._complete] *)
Definition _complete (s : SequenceEqualSubscriber) :=
  if _oneComplete s
  then emit ((length (_a s) =? 0) && (length (_b s) =? 0)) s
  else set_oneComplete true s.

(** Modelled from the spec: the inherited [_error] of the coordinator forwards
    the error and unsubscribes. *)
Definition _error (err : E) (s : SequenceEqualSubscriber) :=
  unsubscribe (to_destination (Subscriber.error err) s).

(** Modelled from the spec: the public [next] of [Subscriber] on the
    coordinator drops the value when [isStopped]. *)
Definition next (value : T) (s : SequenceEqualSubscriber) :=
  if isStopped s then s else _next value s.

(** Modelled from the spec: the public [error] of [Subscriber] on the
    coordinator is a no-op when [isStopped]; otherwise it sets the flag and
    calls [_error]. *)
Definition error (err : E) (s : SequenceEqualSubscriber) :=
  if isStopped s then s else _error err (set_isStopped true s).

(** Modelled from the spec: the public [complete] of [Subscriber] on the
    coordinator is a no-op when [isStopped]; otherwise it sets the flag and
    calls the overridden [_complete]. *)
Definition complete (s : SequenceEqualSubscriber) :=
  if isStopped s then s else _complete (set_isStopped true s).

(** [SequenceEqualCompareToSubscriber.next]: the inherited guard on the
    subscriber's own flag, then [_next], which calls [parent.nextB]. *)
Definition compareTo_next (value : T) (s : SequenceEqualSubscriber) :=
  if compareToStopped s then s else nextB value s.

(** [SequenceEqualCompareToSubscriber.error]: the inherited guard, then
    [_error], which calls the public [parent.error]. *)
Definition compareTo_error (err : E) (s : SequenceEqualSubscriber) :=
  if compareToStopped s then s
  else error err (set_compareToStopped true s).

(** [SequenceEqualCompareToSubscriber.complete]: the inherited guard, then
    [_complete], which calls [parent._complete] directly. *)
Definition compareTo_complete (s : SequenceEqualSubscriber) :=
  if compareToStopped s then s
  else _complete (set_compareToStopped true s).

(** The notifications of the two sources: [P] for the primary source, [S] for
    [compareTo]. *)
Inductive event : Type :=
| PNext (v : T)
| PError (e : E)
| PComplete
| SNext (v : T)
| SError (e : E)
| SComplete.

Definition handle (ev : event) (s : SequenceEqualSubscriber) :=
  match ev with
  | PNext v => next v s
  | PError e => error e s
  | PComplete => complete s
  | SNext v => compareTo_next v s
  | SError e => compareTo_error e s
  | SComplete => compareTo_complete s
  end.

Definition run (evs : list event) (s : SequenceEqualSubscriber) :=
  fold_left (fun acc ev => handle ev acc) evs s.

Definition output (s : SequenceEqualSubscriber) : list (notification bool E) :=
  received (destination s).

(** The terminal state [Decided]: the downstream subscriber and both
    subscribers of the operator are stopped. *)
Definition Decided (s : SequenceEqualSubscriber) : Prop :=
  Subscriber.isStopped (destination s) = true /\
  isStopped s = true /\ compareToStopped s = true.

(** The equality the drain step evaluates on a pair, as a pure function. *)
Definition equal_pair (p : T * T) : result E bool :=
  match comparor with
  | Some c => c (fst p) (snd p)
  | None => Ok (strict_eq (fst p) (snd p))
  end.

Definition one_empty (s : SequenceEqualSubscriber) : Prop :=
  _a s = [] \/ _b s = [].

(** A source as the sequence of its notifications: its values, then its
    completion. *)
Definition primary (xs : list T) : list event := map PNext xs ++ [PComplete].
Definition secondary (ys : list T) : list event := map SNext ys ++ [SComplete].

(** The merge orders of two event sequences. *)
Inductive interleaving : list event -> list event -> list event -> Prop :=
| il_nil : interleaving [] [] []
| il_left e p s l : interleaving p s l -> interleaving (e :: p) s (e :: l)
| il_right e p s l : interleaving p s l -> interleaving p (e :: s) (e :: l).

(** The verdict on two complete sequences, pair by pair from the front. *)
Fixpoint verdict (xs ys : list T) : list (notification bool E) :=
  match xs, ys with
  | [], [] => [Next true; Complete]
  | x :: xs', y :: ys' =>
      match equal_pair (x, y) with
      | Ok true => verdict xs' ys'
      | Ok false => [Next false; Complete]
      | Fault e => [Error e]
      end
  | _, _ => [Next false; Complete]
  end.

(** Every pair of [l] was found equal. *)
Definition all_equal (l : list (T * T)) : Prop :=
  Forall (fun p => equal_pair p = Ok true) l.

(** While no result is known, nothing was delivered and every pair compared
    so far was equal. *)
Definition Undecided (s : SequenceEqualSubscriber) : Prop :=
  Subscriber.isStopped (destination s) = false /\
  output s = [] /\ all_equal (compared s).

(** How a result came about: a source error, a length test or the second
    completion after equal pairs only; or the last pair compared, which was
    unequal or made the comparator raise. *)
Definition Settled (s : SequenceEqualSubscriber) : Prop :=
  (all_equal (compared s) /\
   ((exists b, output s = [Next b; Complete]) \/
    (exists e, output s = [Error e]))) \/
  (exists l p, compared s = l ++ [p] /\ all_equal l /\
               equal_pair p = Ok false /\
               output s = [Next false; Complete]) \/
  (exists l p e, compared s = l ++ [p] /\ all_equal l /\
                 equal_pair p = Fault e /\ output s = [Error e]).

(** [_oneComplete] is set exactly when one of the two subscribers has taken a
    completion (or, for the secondary one, an error it could not pass on). *)
Definition Recorded (s : SequenceEqualSubscriber) : Prop :=
  _oneComplete s = isStopped s || compareToStopped s.

Definition Inv (s : SequenceEqualSubscriber) : Prop :=
  one_empty s /\
  ((Undecided s /\ Recorded s) \/ (Decided s /\ Settled s)).

(** The state [Collecting] while both sources behave: no result yet,
    [isStopped] tells that the primary source has completed,
    [compareToStopped] that the secondary source has, and [_oneComplete] that
    one of them has. *)
Definition Collecting (s : SequenceEqualSubscriber) : Prop :=
  Subscriber.isStopped (destination s) = false /\
  output s = [] /\
  one_empty s /\
  _oneComplete s = isStopped s || compareToStopped s /\
  isStopped s && compareToStopped s = false.

(** The notifications a source still owes: none once it has completed. *)
Definition pending_primary (done : bool) (xs : list T) : list event :=
  if done then [] else primary xs.

Definition pending_secondary (done : bool) (ys : list T) : list event :=
  if done then [] else secondary ys.
End SequenceEqualOperator.

Arguments init {T E}.
Arguments PNext {T E} v.
Arguments PError {T E} e.
Arguments PComplete {T E}.
Arguments SNext {T E} v.
Arguments SError {T E} e.
Arguments SComplete {T E}.
Arguments primary {T E} xs.
Arguments secondary {T E} ys.
Arguments pending_primary {T E} done xs.
Arguments pending_secondary {T E} done ys.

End SequenceEqual.

(** ** Two [filter] operators in a row

    [source.filter(first).filter(second)]: [FilterOperator.call] builds the
    subscriber of [first] on the subscriber of [second], so the [destination]
    of the upstream [FilterSubscriber] is the downstream [FilterSubscriber] and
    the calls on [this.destination] are calls of its public methods. *)
Module FilterChain.

Section FilterChain.
Variables T E : Type.
Variables first second : T -> nat -> result E bool.

(** The upstream [FilterSubscriber]: its [count], its inherited flag and the
    downstream [FilterSubscriber] it pushes into. *)
Record Chain : Type := mkChain {
  count : nat;
  isStopped : bool;
  destination : Filter.FilterSubscriber T E
}.

Definition init : Chain := mkChain 0 false Filter.init.

(** Modelled from the spec: when a call stops the downstream subscriber it
    unsubscribes itself, and with it the upstream subscriber registered as its
    child. *)
Definition to_destination
           (f : Filter.FilterSubscriber T E -> Filter.FilterSubscriber T E)
           (s : Chain) : Chain :=
  let d := f (destination s) in
  mkChain (count s)
          (if Filter.isStopped (destination s) then isStopped s
           else if Filter.isStopped d then true else isStopped s)
          d.

(** [FilterSubscriber._next] of the upstream subscriber. *)
Definition _next (value : T) (s : Chain) : Chain :=
  let index := count s in
  let s1 := mkChain (S (count s)) (isStopped s) (destination s) in
  match first value index with
  | Fault err => to_destination (Filter.error err) s1
  | Ok result =>
      if result then to_destination (Filter.next second value) s1 else s1
  end.

(** Modelled from the spec: the inherited [_error] passes the error on and
    unsubscribes. *)
Definition _error (err : E) (s : Chain) : Chain :=
  let s' := to_destination (Filter.error err) s in
  mkChain (count s') true (destination s').

(** Modelled from the spec: the inherited [_complete] passes the completion on
    and unsubscribes. *)
Definition _complete (s : Chain) : Chain :=
  let s' := to_destination (@Filter.complete T E) s in
  mkChain (count s') true (destination s').

(** Modelled from the spec: the public methods of [Subscriber], guarded by
    [isStopped]. *)
Definition handle (n : notification T E) (s : Chain) : Chain :=
  if isStopped s then s
  else match n with
       | Next v => _next v s
       | Error e => _error e (mkChain (count s) true (destination s))
       | Complete => _complete (mkChain (count s) true (destination s))
       end.

Definition run (ns : list (notification T E)) (s : Chain) : Chain :=
  fold_left (fun acc n => handle n acc) ns s.

Definition output (s : Chain) : list (notification T E) :=
  Filter.output (destination s).
End FilterChain.

Arguments init {T E}.

End FilterChain.

(** ** Reference notions for the properties below *)
Module Ref.

Section FilterRef.
Variables T E : Type.
Variable predicate : T -> nat -> result E bool.

(** The values among the notifications [l], in order. *)
Fixpoint delivered (l : list (notification T E)) : list T :=
  match l with
  | [] => []
  | Next v :: r => v :: delivered r
  | _ :: r => delivered r
  end.

(** A call of the predicate that returned a truthy value. *)
Definition accepted (c : T * nat) : bool :=
  Filter.truthy predicate (fst c) (snd c).

(** What may follow the values in the output: nothing yet, or one terminal
    notification. *)
Definition terminal_tail (l : list (notification T E)) : Prop :=
  l = [] \/ (exists e, l = [Error e]) \/ l = [Complete].

(** What every run of a [FilterSubscriber] keeps: the values delivered are
    those of the accepted calls; the output is these values followed by a
    terminal notification exactly when the downstream subscriber is stopped;
    and the subscriber does not outlive its destination. *)
Definition Tidy (s : Filter.FilterSubscriber T E) : Prop :=
  delivered (Filter.output s) = map fst (filter accepted (Filter.invoked s)) /\
  (exists tail,
      Filter.output s = map Next (delivered (Filter.output s)) ++ tail /\
      terminal_tail tail /\
      (Subscriber.isStopped (Filter.destination s) = false -> tail = [])) /\
  (Subscriber.isStopped (Filter.destination s) = true ->
   Filter.isStopped s = true).
End FilterRef.

Section SequenceEqualRef.
Variables T E : Type.
Variable strict_eq : T -> T -> bool.
Variable comparor : option (T -> T -> result E bool).

(** The pairs a comparison from the front looks at: the i-th value of one
    sequence with the i-th of the other, up to and including the first pair
    that is not found equal. *)
Fixpoint examined (xs ys : list T) : list (T * T) :=
  match xs, ys with
  | x :: xs', y :: ys' =>
      (x, y) :: match SequenceEqual.equal_pair strict_eq comparor (x, y) with
                | Ok true => examined xs' ys'
                | _ => []
                end
  | _, _ => []
  end.

(** Equality of two sequences under [===]. *)
Fixpoint sequence_eqb (xs ys : list T) : bool :=
  match xs, ys with
  | [], [] => true
  | x :: xs', y :: ys' => strict_eq x y && sequence_eqb xs' ys'
  | _, _ => false
  end.

(** Same length, and every pair found equal. *)
Definition pairwise_equal (xs ys : list T) : Prop :=
  Forall2 (fun x y => SequenceEqual.equal_pair strict_eq comparor (x, y) = Ok true)
          xs ys.

(** What the flags of an undecided coordinator tell about the notifications
    [hist] handled so far, and what a delivered [true] tells. *)
Definition Attested (hist : list (SequenceEqual.event T E))
           (s : SequenceEqual.SequenceEqualSubscriber T E) : Prop :=
  (Subscriber.isStopped (SequenceEqual.destination s) = false ->
   (SequenceEqual.isStopped s = true -> In SequenceEqual.PComplete hist) /\
   (SequenceEqual.compareToStopped s = true ->
    SequenceEqual.isStopped s = false -> In SequenceEqual.SComplete hist)) /\
  (In (Next true) (SequenceEqual.output s) ->
   In SequenceEqual.PComplete hist /\ In SequenceEqual.SComplete hist).
End SequenceEqualRef.

End Ref.

(** ** Concrete subscriptions

    Values and errors are natural numbers.  A synchronous [compareTo] has sent
    everything before the primary source starts, because the operator
    subscribes to it first. *)
Module Demo.

Definition equal_sources : list (SequenceEqual.event nat nat) :=
  SequenceEqual.secondary [1; 2; 3] ++ SequenceEqual.primary [1; 2; 3].

Definition mismatch : list (SequenceEqual.event nat nat) :=
  SequenceEqual.secondary [1; 5; 3] ++ SequenceEqual.primary [1; 2; 3].

Definition longer_secondary : list (SequenceEqual.event nat nat) :=
  SequenceEqual.primary [1; 2] ++ SequenceEqual.secondary [1; 2; 3].

Definition alternating : list (SequenceEqual.event nat nat) :=
  [SequenceEqual.PNext 1; SequenceEqual.SNext 1; SequenceEqual.SNext 2;
   SequenceEqual.PNext 2; SequenceEqual.PComplete; SequenceEqual.SNext 3;
   SequenceEqual.SComplete].

(** The primary source has sent 1, 2 and completed; the secondary source has
    sent 1, 2 and stays silent. *)
Definition silent_secondary : list (SequenceEqual.event nat nat) :=
  SequenceEqual.primary [1; 2] ++ [SequenceEqual.SNext 1; SequenceEqual.SNext 2].

(** The roles of [alternating] exchanged, in another order. *)
Definition swapped : list (SequenceEqual.event nat nat) :=
  [SequenceEqual.SNext 1; SequenceEqual.PNext 1; SequenceEqual.PNext 2;
   SequenceEqual.PNext 3; SequenceEqual.SNext 2; SequenceEqual.SComplete;
   SequenceEqual.PComplete].

(** The primary source is two values ahead of the secondary one. *)
Definition primary_ahead : list (SequenceEqual.event nat nat) :=
  [SequenceEqual.PNext 1; SequenceEqual.PNext 2; SequenceEqual.SNext 1;
   SequenceEqual.PNext 3].

(** Each source has sent 1. *)
Definition one_pair : list (SequenceEqual.event nat nat) :=
  [SequenceEqual.PNext 1; SequenceEqual.SNext 1].

(** A comparator that raises 77 when its first argument is 9. *)
Definition touchy (a b : nat) : result nat bool :=
  if a =? 9 then Fault 77 else Ok (a =? b).

Definition faulty : list (SequenceEqual.event nat nat) :=
  SequenceEqual.secondary [1; 5; 3] ++ SequenceEqual.primary [1; 9; 3].

(** The secondary source has sent 3 and completed; the primary source has sent
    nothing yet. *)
Definition awaiting_primary : SequenceEqual.SequenceEqualSubscriber nat nat :=
  SequenceEqual.run Nat.eqb None
    [SequenceEqual.SNext 3; SequenceEqual.SComplete] SequenceEqual.init.

(** The secondary source has completed without a value. *)
Definition secondary_done : SequenceEqual.SequenceEqualSubscriber nat nat :=
  SequenceEqual.run Nat.eqb None [SequenceEqual.SComplete] SequenceEqual.init.

(** A predicate that keeps the even values and raises 5 on its fourth call. *)
Definition even_until_fourth (v i : nat) : result nat bool :=
  if i =? 3 then Fault 5 else Ok (Nat.even v).

(** A predicate that keeps the values at even positions. *)
Definition even_position (v i : nat) : result nat bool := Ok (Nat.even i).

End Demo.

(** * Properties of [filter] *)
Module FilterSpec.
Import Filter.

Section FilterFacts.
Variables T E : Type.
Variable predicate : T -> nat -> result E bool.

Local Abbreviation state := (FilterSubscriber T E).
Local Abbreviation run := (Filter.run predicate).
Local Abbreviation handle := (Filter.handle predicate).

Lemma filter_run_app (l1 l2 : list (notification T E)) (s : state) :
  run (l1 ++ l2) s = run l2 (run l1 s).
Proof. apply fold_left_app. Qed.

(** A stopped subscriber ignores whatever its source still sends. *)
Lemma filter_stopped_handle (n : notification T E) (s : state) :
  isStopped s = true -> handle n s = s.
Proof.
  intros H; destruct n; simpl;
    unfold next, error, complete; now rewrite H.
Qed.

Lemma filter_stopped_run (ns : list (notification T E)) (s : state) :
  isStopped s = true -> run ns s = s.
Proof.
  induction ns as [|n ns IH]; intros H; simpl; [reflexivity|].
  rewrite filter_stopped_handle by exact H. now apply IH.
Qed.

(** The values of a prefix on which the predicate never raises: each is
    tested once with the running index and forwarded when it passes. *)
Lemma filter_run_values (xs : list T) : forall s : state,
  isStopped s = false ->
  Subscriber.isStopped (destination s) = false ->
  total_on predicate (count s) xs ->
  run (map Next xs) s =
    mkFilter (count s + length xs) false
             (Subscriber.mk false
                (received (destination s)
                 ++ map Next (passing predicate (count s) xs)))
             (invoked s ++ indexed (count s) xs).
Proof.
  induction xs as [|x xs IH]; intros s Hs Hd Ht.
  - destruct s as [c st [ds dl] inv]; simpl in *. subst.
    now rewrite Nat.add_0_r, !app_nil_r.
  - destruct Ht as [[b Hb] Ht].
    change (run (map Next (x :: xs)) s)
      with (run (map Next xs) (next predicate x s)).
    unfold next. rewrite Hs. unfold _next. simpl passing. unfold truthy.
    rewrite Hb. simpl length. simpl indexed.
    destruct b.
    + unfold to_destination, Subscriber.next; simpl. rewrite Hd; simpl.
      rewrite IH; simpl; auto.
      rewrite <- !app_assoc. simpl. f_equal. lia.
    + rewrite IH; simpl; auto.
      rewrite <- !app_assoc. simpl. f_equal. lia.
Qed.
End FilterFacts.

(** C7: on a finite sequence [xs] of values on which the predicate never
    raises, the filter delivers exactly the elements on which the predicate is
    truthy, in their order; the predicate is called once per element with the
    zero-based position of the element among all upstream values; a value on
    which the predicate is falsy changes nothing downstream. *)
Theorem C7_filter_selects_passing_elements :
  forall (T E : Type) (predicate : T -> nat -> result E bool) (xs : list T),
    total_on predicate 0 xs ->
    let s := Filter.run predicate (map Next xs) init in
    output s = map Next (passing predicate 0 xs) /\
    invoked s = indexed 0 xs /\
    count s = length xs /\
    (forall (s0 : FilterSubscriber T E) (v : T),
        isStopped s0 = false ->
        predicate v (count s0) = Ok false ->
        destination (Filter.next predicate v s0) = destination s0 /\
        isStopped (Filter.next predicate v s0) = false /\
        count (Filter.next predicate v s0) = S (count s0)).
Proof.
  intros T E predicate xs Ht s. subst s.
  rewrite filter_run_values by (simpl; auto).
  unfold output; simpl.
  split; [reflexivity|]. split; [reflexivity|]. split; [reflexivity|].
  intros s0 v Hs Hp; unfold next, _next; rewrite Hs, Hp; simpl; auto.
Qed.

(** C8: when the predicate raises on its k-th call (on the value [x] that
    follows the [k-1] values [pre]), the downstream observer has received the
    passing elements of [pre] and then the raised error; whatever the source
    sends afterwards delivers nothing, calls the predicate no more and leaves
    the counter where it was. *)
Theorem C8_filter_predicate_fault :
  forall (T E : Type) (predicate : T -> nat -> result E bool)
         (pre : list T) (x : T) (e : E) (later : list (notification T E)),
    total_on predicate 0 pre ->
    predicate x (length pre) = Fault e ->
    let s := Filter.run predicate (map Next pre ++ Next x :: later) init in
    output s = map Next (passing predicate 0 pre) ++ [Error e] /\
    invoked s = indexed 0 pre ++ [(x, length pre)] /\
    count s = S (length pre) /\
    isStopped s = true /\
    s = Filter.run predicate (map Next pre ++ [Next x]) init.
Proof.
  intros T E predicate pre x e later Ht Hx s. subst s.
  assert (Hstep : forall l,
    Filter.run predicate (map Next pre ++ Next x :: l) init =
    mkFilter (S (length pre)) true
      (Subscriber.mk true (map Next (passing predicate 0 pre) ++ [Error e]))
      (indexed 0 pre ++ [(x, length pre)])).
  { intros l. rewrite filter_run_app, filter_run_values by (simpl; auto). simpl.
    unfold next; simpl. unfold _next; simpl. rewrite Hx.
    unfold to_destination, Subscriber.error; simpl.
    now apply filter_stopped_run. }
  rewrite !Hstep. unfold output; simpl. repeat split.
Qed.

Lemma C7_filter_selects_passing_elements_witness :
  total_on Demo.even_position 0 [10; 11; 12] /\
  output (Filter.run Demo.even_position (map Next [10; 11; 12]) init) =
    [Next 10; Next 12].
Proof.
  assert (Ht : total_on Demo.even_position 0 [10; 11; 12])
    by (simpl; repeat split; eexists; reflexivity).
  split; [exact Ht|].
  exact (proj1 (C7_filter_selects_passing_elements
                  Demo.even_position [10; 11; 12] Ht)).
Defined.

Lemma C8_filter_predicate_fault_witness :
  total_on Demo.even_until_fourth 0 [2; 3; 4] /\
  Demo.even_until_fourth 6 3 = Fault 5 /\
  output (Filter.run Demo.even_until_fourth
            (map Next [2; 3; 4] ++ Next 6 :: [Next 8; Complete]) init) =
    [Next 2; Next 4; Error 5].
Proof.
  assert (Ht : total_on Demo.even_until_fourth 0 [2; 3; 4])
    by (simpl; repeat split; eexists; reflexivity).
  split; [exact Ht|]. split; [reflexivity|].
  exact (proj1 (C8_filter_predicate_fault
                  Demo.even_until_fourth [2; 3; 4] 6
                  [Next 8; Complete] Ht eq_refl)).
Defined.

End FilterSpec.

(** * Properties of [sequenceEqual] *)
Module SequenceEqualSpec.
Import SequenceEqual.

Section SequenceEqualFacts.
Variables T E : Type.
Variable strict_eq : T -> T -> bool.
Variable comparor : option (T -> T -> result E bool).

Local Abbreviation state := (SequenceEqualSubscriber T E).
Local Abbreviation handle := (SequenceEqual.handle strict_eq comparor).
Local Abbreviation run := (SequenceEqual.run strict_eq comparor).
Local Abbreviation checkValues_loop :=
  (SequenceEqual.checkValues_loop strict_eq comparor).
Local Abbreviation equal_pair := (SequenceEqual.equal_pair strict_eq comparor).
Local Abbreviation all_equal := (SequenceEqual.all_equal strict_eq comparor).
Local Abbreviation Inv := (SequenceEqual.Inv strict_eq comparor).

Lemma run_app (l1 l2 : list (event T E)) (s : state) :
  run (l1 ++ l2) s = run l2 (run l1 s).
Proof. apply fold_left_app. Qed.

(** ** Calls on the destination *)

Lemma emit_active (v : bool) (s : state) :
  Subscriber.isStopped (destination s) = false ->
  emit v s =
    mkSeq (_a s) (_b s) (_oneComplete s) true true
          (Subscriber.mk true (received (destination s) ++ [Next v; Complete]))
          (compared s).
Proof.
  intros H. unfold emit, to_destination, Subscriber.next, Subscriber.complete.
  simpl. rewrite H. simpl. now rewrite <- app_assoc.
Qed.

Lemma raise_active (e : E) (s : state) :
  Subscriber.isStopped (destination s) = false ->
  to_destination (Subscriber.error e) s =
    mkSeq (_a s) (_b s) (_oneComplete s) true true
          (Subscriber.mk true (received (destination s) ++ [Error e]))
          (compared s).
Proof.
  intros H. unfold to_destination, Subscriber.error. now rewrite H.
Qed.

(** ** The terminal state is absorbing *)

Lemma stopped_handle (ev : event T E) (s : state) :
  isStopped s = true -> compareToStopped s = true -> handle ev s = s.
Proof.
  intros H1 H2; destruct ev; simpl;
    unfold next, error, complete, compareTo_next, compareTo_error,
      compareTo_complete; now rewrite ?H1, ?H2.
Qed.

Lemma stopped_run (evs : list (event T E)) (s : state) :
  isStopped s = true -> compareToStopped s = true -> run evs s = s.
Proof.
  induction evs as [|ev evs IH]; intros H1 H2; simpl; [reflexivity|].
  rewrite stopped_handle by assumption. now apply IH.
Qed.

(** ** The drain loop *)

Lemma loop_one_empty (a b : list T) (s : state) :
  a = [] \/ b = [] -> checkValues_loop a b s = s.
Proof. intros [-> | ->]; [|destruct a]; reflexivity. Qed.

Lemma areEqual_spec (x y : T) (s : state) :
  areEqual strict_eq comparor x y s =
    match equal_pair (x, y) with
    | Ok r => (s, r)
    | Fault e => (to_destination (Subscriber.error e) s, true)
    end.
Proof.
  unfold areEqual, SequenceEqual.equal_pair; simpl.
  destruct comparor as [c|]; reflexivity.
Qed.

(** From a state in which the downstream subscriber is active, a drain that
    finds one pair does one of three things. *)
Lemma drain_one_pair (x y : T) (a' b' : list T) (s : state) :
  a' = [] \/ b' = [] ->
  Subscriber.isStopped (destination s) = false ->
  checkValues_loop (x :: a') (y :: b') s =
    match equal_pair (x, y) with
    | Ok true =>
        mkSeq a' b' (_oneComplete s) (isStopped s) (compareToStopped s)
              (destination s) (compared s ++ [(x, y)])
    | Ok false =>
        mkSeq a' b' (_oneComplete s) true true
              (Subscriber.mk true
                 (received (destination s) ++ [Next false; Complete]))
              (compared s ++ [(x, y)])
    | Fault e =>
        mkSeq a' b' (_oneComplete s) true true
              (Subscriber.mk true (received (destination s) ++ [Error e]))
              (compared s ++ [(x, y)])
    end.
Proof.
  intros Hone Hd. simpl. rewrite areEqual_spec. simpl fst; simpl snd.
  destruct (equal_pair (x, y)) as [[|]|e];
    rewrite loop_one_empty by assumption.
  - reflexivity.
  - now rewrite emit_active.
  - now rewrite raise_active.
Qed.

(** ** Pushing a value and draining

    Between notifications one buffer is empty, so a drain finds at most the
    pair made of the value just pushed and the oldest value of the other
    side. *)

Lemma push_a (v : T) (s : state) :
  one_empty s ->
  Subscriber.isStopped (destination s) = false ->
  checkValues strict_eq comparor (set_buffers (_a s ++ [v]) (_b s) s) =
    match _b s with
    | [] => set_buffers (_a s ++ [v]) [] s
    | y :: b' =>
        match equal_pair (v, y) with
        | Ok true =>
            mkSeq [] b' (_oneComplete s) (isStopped s) (compareToStopped s)
                  (destination s) (compared s ++ [(v, y)])
        | Ok false =>
            mkSeq [] b' (_oneComplete s) true true
                  (Subscriber.mk true
                     (received (destination s) ++ [Next false; Complete]))
                  (compared s ++ [(v, y)])
        | Fault e =>
            mkSeq [] b' (_oneComplete s) true true
                  (Subscriber.mk true (received (destination s) ++ [Error e]))
                  (compared s ++ [(v, y)])
        end
    end.
Proof.
  intros Hone Hd. unfold checkValues; simpl.
  destruct (_b s) as [|y b'] eqn:Hb.
  - apply loop_one_empty; now right.
  - destruct Hone as [Ha | Hb']; [|congruence].
    rewrite Ha; simpl app.
    rewrite drain_one_pair by (simpl; auto). reflexivity.
Qed.

Lemma push_b (v : T) (s : state) :
  one_empty s ->
  Subscriber.isStopped (destination s) = false ->
  checkValues strict_eq comparor (set_buffers (_a s) (_b s ++ [v]) s) =
    match _a s with
    | [] => set_buffers [] (_b s ++ [v]) s
    | x :: a' =>
        match equal_pair (x, v) with
        | Ok true =>
            mkSeq a' [] (_oneComplete s) (isStopped s) (compareToStopped s)
                  (destination s) (compared s ++ [(x, v)])
        | Ok false =>
            mkSeq a' [] (_oneComplete s) true true
                  (Subscriber.mk true
                     (received (destination s) ++ [Next false; Complete]))
                  (compared s ++ [(x, v)])
        | Fault e =>
            mkSeq a' [] (_oneComplete s) true true
                  (Subscriber.mk true (received (destination s) ++ [Error e]))
                  (compared s ++ [(x, v)])
        end
    end.
Proof.
  intros Hone Hd. unfold checkValues; simpl.
  destruct (_a s) as [|x a'] eqn:Ha.
  - apply loop_one_empty; now left.
  - destruct Hone as [Ha' | Hb]; [congruence|].
    rewrite Hb; simpl app.
    rewrite drain_one_pair by (simpl; auto). reflexivity.
Qed.

(** ** The invariant of every run *)

Lemma all_equal_snoc (l : list (T * T)) (p : T * T) :
  all_equal l -> equal_pair p = Ok true -> all_equal (l ++ [p]).
Proof.
  intros Hl Hp. apply Forall_app. split; [exact Hl|]. now constructor.
Qed.

Lemma Inv_emit (v : bool) (s : state) :
  one_empty s -> Undecided strict_eq comparor s -> Inv (emit v s).
Proof.
  intros Hone (Hd & Hout & Heq). rewrite emit_active by exact Hd.
  split; [exact Hone|]. right. split; [repeat split|].
  left. split; [exact Heq|]. left. exists v.
  unfold output in *; simpl. now rewrite Hout.
Qed.

Lemma Inv_error (e : E) (s : state) :
  one_empty s -> Undecided strict_eq comparor s -> Inv (_error e s).
Proof.
  intros Hone (Hd & Hout & Heq). unfold _error.
  rewrite raise_active by exact Hd.
  split; [exact Hone|]. right. split; [repeat split|].
  left. split; [exact Heq|]. right. exists e.
  unfold output in *; simpl. now rewrite Hout.
Qed.

Lemma Inv_push_a (v : T) (s : state) :
  one_empty s -> Undecided strict_eq comparor s -> Recorded s ->
  Inv (checkValues strict_eq comparor (set_buffers (_a s ++ [v]) (_b s) s)).
Proof.
  intros Hone (Hd & Hout & Heq) Hrec. rewrite push_a by assumption.
  destruct (_b s) as [|y b'].
  - split; [now right|]. left. repeat split; assumption.
  - destruct (equal_pair (v, y)) as [[|]|e] eqn:Hp;
      (split; [now left|]).
    + left. repeat split; try assumption. now apply all_equal_snoc.
    + right. split; [repeat split|]. right; left.
      exists (compared s), (v, y). unfold output in *; simpl.
      now rewrite Hout.
    + right. split; [repeat split|]. right; right.
      exists (compared s), (v, y), e. unfold output in *; simpl.
      now rewrite Hout.
Qed.

Lemma Inv_push_b (v : T) (s : state) :
  one_empty s -> Undecided strict_eq comparor s -> Recorded s ->
  Inv (checkValues strict_eq comparor (set_buffers (_a s) (_b s ++ [v]) s)).
Proof.
  intros Hone (Hd & Hout & Heq) Hrec. rewrite push_b by assumption.
  destruct (_a s) as [|x a'].
  - split; [now left|]. left. repeat split; assumption.
  - destruct (equal_pair (x, v)) as [[|]|e] eqn:Hp;
      (split; [now right|]).
    + left. repeat split; try assumption. now apply all_equal_snoc.
    + right. split; [repeat split|]. right; left.
      exists (compared s), (x, v). unfold output in *; simpl.
      now rewrite Hout.
    + right. split; [repeat split|]. right; right.
      exists (compared s), (x, v), e. unfold output in *; simpl.
      now rewrite Hout.
Qed.

Lemma Inv_complete (s : state) :
  one_empty s -> Undecided strict_eq comparor s ->
  isStopped s || compareToStopped s = true ->
  Inv (_complete s).
Proof.
  intros Hone Hu Hfl. unfold _complete. destruct (_oneComplete s).
  - now apply Inv_emit.
  - split; [exact Hone|]. left. split; [exact Hu|].
    unfold Recorded; simpl. now rewrite Hfl.
Qed.

Lemma Inv_handle (ev : event T E) (s : state) : Inv s -> Inv (handle ev s).
Proof.
  intros [Hone [[Hu Hrec] | [Hd Hs]]].
  - assert (HI : Inv s) by (split; [exact Hone | now left]).
    destruct ev; simpl.
    + unfold next. destruct (isStopped s); [exact HI|].
      unfold _next. destruct (_oneComplete s && _).
      * now apply Inv_emit.
      * now apply Inv_push_a.
    + unfold error. destruct (isStopped s); [exact HI|].
      now apply Inv_error.
    + unfold complete. destruct (isStopped s); [exact HI|].
      now apply Inv_complete.
    + unfold compareTo_next. destruct (compareToStopped s); [exact HI|].
      unfold nextB. destruct (_oneComplete s && _).
      * now apply Inv_emit.
      * now apply Inv_push_b.
    + unfold compareTo_error. destruct (compareToStopped s); [exact HI|].
      unfold error; simpl. destruct (isStopped s) eqn:Hst.
      * split; [exact Hone|]. left. split; [exact Hu|].
        unfold Recorded in *; simpl. now rewrite Hrec, Hst.
      * now apply Inv_error.
    + unfold compareTo_complete.
      destruct (compareToStopped s); [exact HI|].
      apply Inv_complete; auto. simpl. apply orb_true_r.
  - destruct Hd as (Hd1 & Hd2 & Hd3).
    rewrite stopped_handle by assumption.
    split; [exact Hone|]. right. now repeat split.
Qed.

Lemma Inv_init : Inv init.
Proof.
  split; [now left|]. left. repeat split. constructor.
Qed.

Lemma Inv_run (evs : list (event T E)) : forall s, Inv s -> Inv (run evs s).
Proof.
  induction evs as [|ev evs IH]; intros s H; simpl; [exact H|].
  apply IH. now apply Inv_handle.
Qed.

(** A pair that was compared and not found equal is the last pair that was
    ever compared, and it settled the result. *)
Lemma snoc_inversion (A : Type) (l1 l2 l : list A) (p q : A) :
  l1 ++ p :: l2 = l ++ [q] -> (l2 = [] /\ l1 = l /\ p = q) \/ In p l.
Proof.
  intros H. destruct l2 as [|z l2] using rev_ind.
  - apply app_inj_tail in H. left. tauto.
  - clear IHl2. right.
    change (l1 ++ p :: l2 ++ [z]) with (l1 ++ (p :: l2) ++ [z]) in H.
    rewrite app_assoc in H. apply app_inj_tail in H. destruct H as [<- _].
    apply in_or_app. right. now left.
Qed.

Lemma all_equal_in (l : list (T * T)) (p : T * T) :
  all_equal l -> In p l -> equal_pair p = Ok true.
Proof.
  intros Hl Hp. unfold SequenceEqual.all_equal in Hl.
  rewrite Forall_forall in Hl. now apply Hl.
Qed.

Lemma last_unequal (s : state) (l1 l2 : list (T * T)) (p : T * T) :
  Inv s ->
  compared s = l1 ++ p :: l2 ->
  equal_pair p <> Ok true ->
  l2 = [] /\ Decided s /\
  ((equal_pair p = Ok false /\ output s = [Next false; Complete]) \/
   (exists e, equal_pair p = Fault e /\ output s = [Error e])).
Proof.
  intros [_ HI] Hc Hp.
  assert (Hin : In p (compared s))
    by (rewrite Hc; apply in_or_app; right; now left).
  destruct HI as [[(_ & _ & Heq) _] | [Hd [[Heq _] | [H | H]]]].
  - elim Hp. now apply all_equal_in with (compared s).
  - elim Hp. now apply all_equal_in with (compared s).
  - destruct H as (l & q & Hl & Heq & Hq & Hout).
    rewrite Hc in Hl. apply snoc_inversion in Hl.
    destruct Hl as [(-> & _ & ->) | Hl].
    + split; [reflexivity|]. split; [exact Hd|]. now left.
    + elim Hp. now apply all_equal_in with l.
  - destruct H as (l & q & e & Hl & Heq & Hq & Hout).
    rewrite Hc in Hl. apply snoc_inversion in Hl.
    destruct Hl as [(-> & _ & ->) | Hl].
    + split; [reflexivity|]. split; [exact Hd|]. right. now exists e.
    + elim Hp. now apply all_equal_in with l.
Qed.

Lemma Inv_output (s : state) :
  Inv s ->
  output s = [] \/ (exists b, output s = [Next b; Complete]) \/
  (exists e, output s = [Error e]).
Proof.
  intros [_ [[(_ & Hout & _) _] | [_ [[_ [H | H]] | [H | H]]]]].
  - now left.
  - right; now left.
  - right; now right.
  - destruct H as (l & q & _ & _ & _ & Hout). right; left. now exists false.
  - destruct H as (l & q & e & _ & _ & _ & Hout). right; right. now exists e.
Qed.

(** ** Independence of the merge order *)

Local Abbreviation verdict := (SequenceEqual.verdict strict_eq comparor).

Lemma verdict_cons (x y : T) (xs ys : list T) :
  verdict (x :: xs) (y :: ys) =
    match equal_pair (x, y) with
    | Ok true => verdict xs ys
    | Ok false => [Next false; Complete]
    | Fault e => [Error e]
    end.
Proof. reflexivity. Qed.

Lemma verdict_nil_r (xs : list T) :
  verdict xs [] = [Next ((length xs =? 0) && true); Complete].
Proof. destruct xs; reflexivity. Qed.

Lemma verdict_nil_l (ys : list T) :
  verdict [] ys = [Next (true && (length ys =? 0)); Complete].
Proof. destruct ys; reflexivity. Qed.

Lemma primary_inv (e : event T E) (p : list (event T E)) (xs : list T) :
  e :: p = primary xs ->
  (xs = [] /\ e = PComplete /\ p = []) \/
  (exists x xs', xs = x :: xs' /\ e = PNext x /\ p = primary xs').
Proof.
  destruct xs as [|x xs]; unfold primary; simpl; intros H;
    injection H as -> ->; [left | right; exists x, xs]; auto.
Qed.

Lemma secondary_inv (e : event T E) (q : list (event T E)) (ys : list T) :
  e :: q = secondary ys ->
  (ys = [] /\ e = SComplete /\ q = []) \/
  (exists y ys', ys = y :: ys' /\ e = SNext y /\ q = secondary ys').
Proof.
  destruct ys as [|y ys]; unfold secondary; simpl; intros H;
    injection H as -> ->; [left | right; exists y, ys]; auto.
Qed.

Lemma pending_primary_cons (e : event T E) (p : list (event T E))
      (done : bool) (xs : list T) :
  e :: p = pending_primary done xs -> done = false /\ e :: p = primary xs.
Proof. destruct done; simpl; [discriminate | auto]. Qed.

Lemma pending_secondary_cons (e : event T E) (q : list (event T E))
      (done : bool) (ys : list T) :
  e :: q = pending_secondary done ys -> done = false /\ e :: q = secondary ys.
Proof. destruct done; simpl; [discriminate | auto]. Qed.

Lemma pending_primary_nil (done : bool) (xs : list T) :
  @nil (event T E) = pending_primary done xs -> done = true.
Proof.
  destruct done; [reflexivity|]. unfold pending_primary, primary.
  intros H. symmetry in H. apply app_eq_nil in H. destruct H; discriminate.
Qed.

Lemma pending_secondary_nil (done : bool) (ys : list T) :
  @nil (event T E) = pending_secondary done ys -> done = true.
Proof.
  destruct done; [reflexivity|]. unfold pending_secondary, secondary.
  intros H. symmetry in H. apply app_eq_nil in H. destruct H; discriminate.
Qed.

(** A result, once delivered, is what the run ends with. *)
Lemma settled_run (l : list (event T E)) (s : state) :
  isStopped s = true -> compareToStopped s = true ->
  output (run l s) = output s.
Proof. intros H1 H2. now rewrite stopped_run. Qed.

Ltac settle Hout :=
  rewrite settled_run by reflexivity;
  unfold output in Hout |- *; simpl; rewrite ?Hout; simpl.

(** From a [Collecting] state, whatever the order in which the notifications
    still owed by the two sources arrive, the run ends with the verdict on
    the buffered values followed by the values still to come. *)
Lemma collecting_verdict (p q l : list (event T E)) :
  interleaving p q l ->
  forall (s : state) (xs ys : list T),
    Collecting s ->
    p = pending_primary (isStopped s) xs ->
    q = pending_secondary (compareToStopped s) ys ->
    (isStopped s = true -> xs = []) ->
    (compareToStopped s = true -> ys = []) ->
    output (run l s) = verdict (_a s ++ xs) (_b s ++ ys).
Proof.
  induction 1 as [|e p q l Hl IH|e p q l Hl IH];
    intros s xs ys (Hd & Hout & Hone & Hoc & Hboth) Hp Hq Hxs Hys.
  - apply pending_primary_nil in Hp. apply pending_secondary_nil in Hq.
    rewrite Hp, Hq in Hboth. discriminate.
  - apply pending_primary_cons in Hp. destruct Hp as [Hst Hp].
    rewrite Hst in *. simpl in Hoc. clear Hxs Hboth.
    apply primary_inv in Hp.
    destruct Hp as [(-> & -> & ->) | (x & xs' & -> & -> & ->)].
    + change (run (PComplete :: l) s) with (run l (complete s)).
      unfold complete. rewrite Hst. unfold _complete.
      simpl _oneComplete. rewrite Hoc.
      destruct (compareToStopped s) eqn:Hcs.
      * rewrite emit_active by exact Hd. settle Hout.
        rewrite (Hys eq_refl), !app_nil_r.
        destruct Hone as [-> | ->];
          [rewrite verdict_nil_l | rewrite verdict_nil_r]; reflexivity.
      * apply (IH (set_oneComplete true (set_isStopped true s)) [] ys);
          simpl; try rewrite Hcs; auto.
        repeat split; simpl; auto.
    + change (run (PNext x :: l) s)
        with (run l (next strict_eq comparor x s)).
      unfold next. rewrite Hst. unfold _next. rewrite Hoc.
      destruct (compareToStopped s && (length (_b s) =? 0)) eqn:Hg.
      * apply andb_prop in Hg. destruct Hg as [Hcs Hb].
        rewrite emit_active by exact Hd. settle Hout.
        apply Nat.eqb_eq, length_zero_iff_nil in Hb.
        rewrite Hb, (Hys Hcs). simpl app. rewrite verdict_nil_r.
        rewrite length_app. simpl. now rewrite Nat.add_comm.
      * rewrite push_a by assumption.
        destruct (_b s) as [|y b'] eqn:Hb.
        -- simpl in Hg. rewrite andb_true_r in Hg.
           rewrite (IH (set_buffers (_a s ++ [x]) [] s) xs' ys).
           ++ simpl. now rewrite <- app_assoc.
           ++ repeat split; simpl; auto; [now right | now rewrite Hoc, Hst, Hg | now rewrite Hst].
           ++ simpl. now rewrite Hst.
           ++ exact Hq.
           ++ simpl. rewrite Hst. intros; discriminate.
           ++ exact Hys.
        -- destruct Hone as [Ha | Hb']; [|congruence].
           rewrite Ha. simpl app. rewrite verdict_cons.
           destruct (equal_pair (x, y)) as [[|]|e] eqn:Hxy.
           ++ match goal with |- output (run l ?s') = _ =>
                rewrite (IH s' xs' ys) end.
              ** reflexivity.
              ** repeat split; simpl; auto; [now left | now rewrite Hoc, Hst | now rewrite Hst].
              ** simpl. now rewrite Hst.
              ** exact Hq.
              ** simpl. rewrite Hst. intros; discriminate.
              ** exact Hys.
           ++ now settle Hout.
           ++ now settle Hout.
  - apply pending_secondary_cons in Hq. destruct Hq as [Hcs Hq].
    rewrite Hcs in *. rewrite orb_false_r in Hoc. clear Hys Hboth.
    apply secondary_inv in Hq.
    destruct Hq as [(-> & -> & ->) | (y & ys' & -> & -> & ->)].
    + change (run (SComplete :: l) s)
        with (run l (compareTo_complete s)).
      unfold compareTo_complete. rewrite Hcs. unfold _complete.
      simpl _oneComplete. rewrite Hoc.
      destruct (isStopped s) eqn:Hst.
      * rewrite emit_active by exact Hd. settle Hout.
        rewrite (Hxs eq_refl), !app_nil_r.
        destruct Hone as [-> | ->];
          [rewrite verdict_nil_l | rewrite verdict_nil_r]; reflexivity.
      * apply (IH (set_oneComplete true (set_compareToStopped true s)) xs []);
          simpl; try rewrite Hst; auto.
        repeat split; simpl; auto; now rewrite Hst.
    + change (run (SNext y :: l) s)
        with (run l (compareTo_next strict_eq comparor y s)).
      unfold compareTo_next. rewrite Hcs. unfold nextB. rewrite Hoc.
      destruct (isStopped s && (length (_a s) =? 0)) eqn:Hg.
      * apply andb_prop in Hg. destruct Hg as [Hst Ha].
        rewrite emit_active by exact Hd. settle Hout.
        apply Nat.eqb_eq, length_zero_iff_nil in Ha.
        rewrite Ha, (Hxs Hst). simpl app. rewrite verdict_nil_l.
        rewrite length_app. simpl. now rewrite Nat.add_comm.
      * rewrite push_b by assumption.
        destruct (_a s) as [|x a'] eqn:Ha.
        -- simpl in Hg. rewrite andb_true_r in Hg.
           rewrite (IH (set_buffers [] (_b s ++ [y]) s) xs ys').
           ++ simpl. now rewrite <- app_assoc.
           ++ repeat split; simpl; auto;
                [now left | now rewrite Hoc, Hcs, Hg | now rewrite Hcs, Hg].
           ++ exact Hp.
           ++ simpl. now rewrite Hcs.
           ++ exact Hxs.
           ++ simpl. rewrite Hcs. intros; discriminate.
        -- destruct Hone as [Ha' | Hb]; [congruence|].
           rewrite Hb. simpl app. rewrite verdict_cons.
           destruct (equal_pair (x, y)) as [[|]|e] eqn:Hxy.
           ++ match goal with |- output (run l ?s') = _ =>
                rewrite (IH s' xs ys') end.
              ** reflexivity.
              ** repeat split; simpl; auto;
                   [now right | now rewrite Hoc, Hcs, orb_false_r
                   | now rewrite Hcs, andb_false_r].
              ** exact Hp.
              ** simpl. now rewrite Hcs.
              ** exact Hxs.
              ** simpl. rewrite Hcs. intros; discriminate.
           ++ now settle Hout.
           ++ now settle Hout.
Qed.
End SequenceEqualFacts.

Lemma Inv_reachable (T E : Type) (strict_eq : T -> T -> bool)
      (comparor : option (T -> T -> result E bool)) (evs : list (event T E)) :
  Inv strict_eq comparor (run strict_eq comparor evs init).
Proof. apply Inv_run, Inv_init. Qed.

Lemma frozen_after (T E : Type) (strict_eq : T -> T -> bool)
      (comparor : option (T -> T -> result E bool))
      (evs later : list (event T E)) :
  Decided (run strict_eq comparor evs init) ->
  run strict_eq comparor (evs ++ later) init = run strict_eq comparor evs init.
Proof.
  intros (_ & H1 & H2). rewrite run_app. now apply stopped_run.
Qed.

(** X13: in every run, as long as nothing was delivered, [_oneComplete] tells that
    one of the two subscribers has stopped: for a live primary source it means
    that the secondary source is done, and the other way round. *)
Lemma oneComplete_records_a_completion (T E : Type)
      (strict_eq : T -> T -> bool)
      (comparor : option (T -> T -> result E bool)) (evs : list (event T E)) :
  Subscriber.isStopped (destination (run strict_eq comparor evs init)) = false ->
  _oneComplete (run strict_eq comparor evs init) =
    isStopped (run strict_eq comparor evs init)
    || compareToStopped (run strict_eq comparor evs init).
Proof.
  intros Hd.
  destruct (Inv_reachable strict_eq comparor evs)
    as [_ [[_ Hrec] | [(Hd' & _) _]]].
  - exact Hrec.
  - rewrite Hd in Hd'. discriminate.
Qed.

(** C1: in every run, a pair that the drain step popped and found unequal is
    the last pair whose equality is ever evaluated; the downstream observer
    has received [false] and the completion, the coordinator is [Decided], and
    no later notification changes anything, so what is left in the buffers is
    never looked at. *)
Theorem C1_first_mismatch_decides :
  forall (T E : Type) (strict_eq : T -> T -> bool)
         (comparor : option (T -> T -> result E bool))
         (evs later : list (event T E)) (l1 l2 : list (T * T)) (p : T * T),
    compared (run strict_eq comparor evs init) = l1 ++ p :: l2 ->
    equal_pair strict_eq comparor p = Ok false ->
    l2 = [] /\
    output (run strict_eq comparor evs init) = [Next false; Complete] /\
    Decided (run strict_eq comparor evs init) /\
    run strict_eq comparor (evs ++ later) init = run strict_eq comparor evs init.
Proof.
  intros T E strict_eq comparor evs later l1 l2 p Hc Hp.
  destruct (@last_unequal T E strict_eq comparor _ l1 l2 p
              (Inv_reachable strict_eq comparor evs) Hc)
    as (Hl & Hd & [[_ Hout] | (e & He & _)]).
  - rewrite Hp; discriminate.
  - repeat split; try assumption; try apply Hd. now apply frozen_after.
  - rewrite Hp in He; discriminate.
Qed.

(** C2: while no result is known, the first completion (of either source) only
    sets [_oneComplete] and delivers nothing; the second completion delivers
    one boolean, which is [true] exactly when both buffers are empty at that
    moment, then the completion, and leaves the coordinator [Decided] so that
    the test is never made again. *)
Theorem C2_result_at_second_completion :
  forall (T E : Type) (strict_eq : T -> T -> bool)
         (comparor : option (T -> T -> result E bool))
         (s : SequenceEqualSubscriber T E),
    Subscriber.isStopped (destination s) = false ->
    (_oneComplete s = false ->
     (isStopped s = false ->
      handle strict_eq comparor PComplete s =
        set_oneComplete true (set_isStopped true s)) /\
     (compareToStopped s = false ->
      handle strict_eq comparor SComplete s =
        set_oneComplete true (set_compareToStopped true s))) /\
    (_oneComplete s = true ->
     forall ev : event T E,
       (ev = PComplete /\ isStopped s = false) \/
       (ev = SComplete /\ compareToStopped s = false) ->
       exists b : bool,
         output (handle strict_eq comparor ev s) =
           output s ++ [Next b; Complete] /\
         (b = true <-> _a s = [] /\ _b s = []) /\
         Decided (handle strict_eq comparor ev s) /\
         forall later : list (event T E),
           run strict_eq comparor later (handle strict_eq comparor ev s) =
             handle strict_eq comparor ev s).
Proof.
  intros T E strict_eq comparor s Hd. split.
  - intros Hoc. split; intros Hst; simpl;
      unfold complete, compareTo_complete, _complete; rewrite Hst; simpl;
        now rewrite Hoc.
  - intros Hoc ev Hev.
    assert (Hh : handle strict_eq comparor ev s =
                 mkSeq (_a s) (_b s) true true true
                   (Subscriber.mk true
                      (received (destination s)
                       ++ [Next ((length (_a s) =? 0) && (length (_b s) =? 0));
                           Complete]))
                   (compared s)).
    { destruct Hev as [[-> Hst] | [-> Hst]]; simpl;
        unfold complete, compareTo_complete, _complete; rewrite Hst; simpl;
          rewrite Hoc, emit_active by exact Hd; simpl; now rewrite Hoc. }
    rewrite Hh. exists ((length (_a s) =? 0) && (length (_b s) =? 0)).
    split; [reflexivity|]. split; [|split; [repeat split|]].
    + rewrite andb_true_iff, !Nat.eqb_eq, !length_zero_iff_nil. tauto.
    + intros later. now apply stopped_run.
Qed.

(** C3: in every run with a comparator, a pair on which the comparator raised
    is the last pair ever compared; the downstream observer has received that
    error and nothing else, in particular no boolean, and the coordinator is
    stopped for good. *)
Theorem C3_comparator_fault_is_forwarded :
  forall (T E : Type) (strict_eq : T -> T -> bool)
         (c : T -> T -> result E bool)
         (evs later : list (event T E)) (l1 l2 : list (T * T)) (x y : T) (e : E),
    compared (run strict_eq (Some c) evs init) = l1 ++ (x, y) :: l2 ->
    c x y = Fault e ->
    l2 = [] /\
    output (run strict_eq (Some c) evs init) = [Error e] /\
    Decided (run strict_eq (Some c) evs init) /\
    run strict_eq (Some c) (evs ++ later) init = run strict_eq (Some c) evs init.
Proof.
  intros T E strict_eq c evs later l1 l2 x y e Hc Hp.
  assert (Hq : equal_pair strict_eq (Some c) (x, y) = Fault e) by exact Hp.
  destruct (@last_unequal T E strict_eq (Some c) _ l1 l2 (x, y)
              (Inv_reachable strict_eq (Some c) evs) Hc)
    as (Hl & Hd & [[He _] | (e' & He & Hout)]).
  - rewrite Hq; discriminate.
  - rewrite Hq in He; discriminate.
  - rewrite Hq in He. injection He as <-.
    repeat split; try assumption; try apply Hd. now apply frozen_after.
Qed.

(** C4: while no result is known and one completion is recorded, a value of the
    primary source (which is then the live one) that finds the secondary
    buffer empty is not buffered: [false] and the completion are delivered and
    the coordinator is [Decided]; the same for a value of the secondary source
    that finds the primary buffer empty. *)
Theorem C4_value_after_other_side_completed :
  forall (T E : Type) (strict_eq : T -> T -> bool)
         (comparor : option (T -> T -> result E bool))
         (s : SequenceEqualSubscriber T E) (v : T),
    Subscriber.isStopped (destination s) = false ->
    _oneComplete s = true ->
    (isStopped s = false -> _b s = [] ->
     output (handle strict_eq comparor (PNext v) s) =
       output s ++ [Next false; Complete] /\
     Decided (handle strict_eq comparor (PNext v) s) /\
     _a (handle strict_eq comparor (PNext v) s) = _a s /\
     _b (handle strict_eq comparor (PNext v) s) = [] /\
     compared (handle strict_eq comparor (PNext v) s) = compared s) /\
    (compareToStopped s = false -> _a s = [] ->
     output (handle strict_eq comparor (SNext v) s) =
       output s ++ [Next false; Complete] /\
     Decided (handle strict_eq comparor (SNext v) s) /\
     _a (handle strict_eq comparor (SNext v) s) = [] /\
     _b (handle strict_eq comparor (SNext v) s) = _b s /\
     compared (handle strict_eq comparor (SNext v) s) = compared s).
Proof.
  intros T E strict_eq comparor s v Hd Hoc. split; intros Hst Hbuf; simpl.
  - unfold next, _next. rewrite Hst, Hoc, Hbuf. simpl.
    rewrite emit_active by exact Hd. unfold output; simpl.
    rewrite Hbuf. repeat split.
  - unfold compareTo_next, nextB. rewrite Hst, Hoc, Hbuf. simpl.
    rewrite emit_active by exact Hd. unfold output; simpl.
    rewrite Hbuf. repeat split.
Qed.

(** C5: whatever the two sources send and in whatever order, the terminal
    observer receives nothing at all, or one boolean followed by the
    completion, or one error: never a second value, never a completion without
    a value. *)
Theorem C5_at_most_one_boolean_then_completion :
  forall (T E : Type) (strict_eq : T -> T -> bool)
         (comparor : option (T -> T -> result E bool))
         (evs : list (event T E)),
    output (run strict_eq comparor evs init) = [] \/
    (exists b, output (run strict_eq comparor evs init) = [Next b; Complete]) \/
    (exists e, output (run strict_eq comparor evs init) = [Error e]).
Proof.
  intros. apply Inv_output with strict_eq comparor. apply Inv_reachable.
Qed.

(** C6: for two sequences of values, each followed by its completion, every
    merge order of the notifications of the two sources delivers the same
    thing downstream, namely the verdict on the two sequences. *)
Theorem C6_result_independent_of_interleaving :
  forall (T E : Type) (strict_eq : T -> T -> bool)
         (comparor : option (T -> T -> result E bool))
         (xs ys : list T) (l1 l2 : list (event T E)),
    interleaving (primary xs) (secondary ys) l1 ->
    interleaving (primary xs) (secondary ys) l2 ->
    output (run strict_eq comparor l1 init) =
      output (run strict_eq comparor l2 init) /\
    output (run strict_eq comparor l1 init) = verdict strict_eq comparor xs ys.
Proof.
  intros T E strict_eq comparor xs ys l1 l2 H1 H2.
  assert (Hc : Collecting (@init T E)) by (repeat split; now left).
  assert (Hv : forall l, interleaving (primary xs) (secondary ys) l ->
                 output (run strict_eq comparor l init) =
                   verdict strict_eq comparor xs ys).
  { intros l Hl.
    apply (@collecting_verdict T E strict_eq comparor _ _ l Hl init xs ys Hc);
      simpl; auto; intros; discriminate. }
  rewrite (Hv l1 H1), (Hv l2 H2). now split.
Qed.

(** While the coordinator itself is live, an error of either source is
    forwarded unchanged and no boolean follows. *)
Lemma source_error_while_live :
  forall (T E : Type) (strict_eq : T -> T -> bool)
         (comparor : option (T -> T -> result E bool))
         (s : SequenceEqualSubscriber T E) (e : E) (ev : event T E),
    Subscriber.isStopped (destination s) = false ->
    isStopped s = false ->
    ev = PError e \/ (ev = SError e /\ compareToStopped s = false) ->
    output (handle strict_eq comparor ev s) = output s ++ [Error e] /\
    Decided (handle strict_eq comparor ev s).
Proof.
  intros T E strict_eq comparor s e ev Hd Hst [-> | [-> Hcs]]; simpl;
    unfold compareTo_error, error, _error; simpl; rewrite ?Hcs, Hst;
      simpl; rewrite raise_active by exact Hd; now repeat split.
Qed.

(** C9, as the code has it: an error of the secondary source that arrives
    after the primary source has completed reaches [parent.error] when the
    coordinator is already stopped and is dropped there; the downstream
    observer receives neither the error nor, whatever follows, anything else. *)
Theorem C9_secondary_error_after_primary_completion_is_dropped :
  forall (T E : Type) (strict_eq : T -> T -> bool)
         (comparor : option (T -> T -> result E bool))
         (e : E) (later : list (event T E)),
    output (run strict_eq comparor ([PComplete; SError e] ++ later) init) = [].
Proof.
  intros. rewrite run_app. now rewrite stopped_run.
Qed.

(** C10: after every notification of every run, one of the two buffers is
    empty. *)
Theorem C10_one_buffer_empty :
  forall (T E : Type) (strict_eq : T -> T -> bool)
         (comparor : option (T -> T -> result E bool))
         (evs : list (event T E)),
    _a (run strict_eq comparor evs init) = [] \/
    _b (run strict_eq comparor evs init) = [].
Proof.
  intros. destruct (Inv_reachable strict_eq comparor evs) as [H _]. exact H.
Qed.

(** ** The scenarios of the specification *)

Example equal_sources_give_true :
  output (run Nat.eqb None Demo.equal_sources init) = [Next true; Complete].
Proof. reflexivity. Qed.

Example mismatch_gives_false_after_two_pairs :
  output (run Nat.eqb None Demo.mismatch init) = [Next false; Complete] /\
  compared (run Nat.eqb None Demo.mismatch init) = [(1, 1); (2, 5)].
Proof. split; reflexivity. Qed.

Example longer_secondary_gives_false :
  output (run Nat.eqb None Demo.longer_secondary init) = [Next false; Complete].
Proof. reflexivity. Qed.

Example nothing_while_one_source_stays_open :
  output (run Nat.eqb None Demo.silent_secondary init) = [] /\
  compared (run Nat.eqb None Demo.silent_secondary init) = [(1, 1); (2, 2)].
Proof. split; reflexivity. Qed.

(** The loop of [checkValues] has no exit of its own: called on buffers that
    hold several pairs (which no run produces, see C10) it goes on comparing
    after an unequal pair; the downstream subscriber, stopped by the first
    [emit], drops the repeated result. *)
Remark drain_runs_until_a_buffer_is_empty :
  let s := checkValues Nat.eqb None
             (set_buffers [1; 2; 3] [1; 5; 4; 6] (@init nat nat)) in
  compared s = [(1, 1); (2, 5); (3, 4)] /\
  output s = [Next false; Complete] /\
  _a s = [] /\ _b s = [6].
Proof. repeat split. Qed.

Lemma C1_first_mismatch_decides_witness :
  compared (run Nat.eqb None Demo.mismatch init) = [(1, 1)] ++ (2, 5) :: [] /\
  equal_pair Nat.eqb (@None (nat -> nat -> result nat bool)) (2, 5) = Ok false /\
  output (run Nat.eqb None Demo.mismatch init) = [Next false; Complete].
Proof.
  split; [reflexivity|]. split; [reflexivity|].
  exact (proj1 (proj2 (@C1_first_mismatch_decides nat nat Nat.eqb None
                         Demo.mismatch [] [(1, 1)] [] (2, 5)
                         eq_refl eq_refl))).
Defined.

Lemma C2_result_at_second_completion_witness :
  Subscriber.isStopped (destination Demo.awaiting_primary) = false /\
  exists b : bool,
    output (handle Nat.eqb None PComplete Demo.awaiting_primary) =
      [Next b; Complete] /\
    (b = true <-> _a Demo.awaiting_primary = [] /\ _b Demo.awaiting_primary = []).
Proof.
  split; [reflexivity|].
  destruct (@C2_result_at_second_completion nat nat Nat.eqb None
              Demo.awaiting_primary eq_refl) as [_ H2].
  destruct (H2 eq_refl PComplete (or_introl (conj eq_refl eq_refl)))
    as (b & Hout & Hb & _).
  exists b. split; [exact Hout | exact Hb].
Defined.

Lemma C3_comparator_fault_is_forwarded_witness :
  compared (run Nat.eqb (Some Demo.touchy) Demo.faulty init)
    = [(1, 1)] ++ (9, 5) :: [] /\
  Demo.touchy 9 5 = Fault 77 /\
  output (run Nat.eqb (Some Demo.touchy) Demo.faulty init) = [Error 77].
Proof.
  split; [reflexivity|]. split; [reflexivity|].
  exact (proj1 (proj2 (@C3_comparator_fault_is_forwarded nat nat Nat.eqb
                         Demo.touchy Demo.faulty [] [(1, 1)] [] 9 5 77
                         eq_refl eq_refl))).
Defined.

Lemma C4_value_after_other_side_completed_witness :
  Subscriber.isStopped (destination Demo.secondary_done) = false /\
  _oneComplete Demo.secondary_done = true /\
  output (handle Nat.eqb None (PNext 7) Demo.secondary_done) =
    [Next false; Complete].
Proof.
  split; [reflexivity|]. split; [reflexivity|].
  exact (proj1 (proj1 (@C4_value_after_other_side_completed nat nat Nat.eqb
                         None Demo.secondary_done 7 eq_refl eq_refl)
                      eq_refl eq_refl)).
Defined.

Lemma C6_result_independent_of_interleaving_witness :
  interleaving (primary [1; 2]) (secondary [1; 2; 3]) Demo.longer_secondary /\
  interleaving (primary [1; 2]) (secondary [1; 2; 3]) Demo.alternating /\
  output (run Nat.eqb None Demo.longer_secondary init) =
    output (run Nat.eqb None Demo.alternating init).
Proof.
  assert (H1 : interleaving (primary [1; 2]) (secondary [1; 2; 3])
                            Demo.longer_secondary)
    by (repeat (apply il_left || apply il_right); apply il_nil).
  assert (H2 : interleaving (primary [1; 2]) (secondary [1; 2; 3])
                            Demo.alternating)
    by (repeat (apply il_left || apply il_right); apply il_nil).
  split; [exact H1|]. split; [exact H2|].
  exact (proj1 (@C6_result_independent_of_interleaving nat nat Nat.eqb None
                  [1; 2] [1; 2; 3] _ _ H1 H2)).
Defined.

End SequenceEqualSpec.

(** * Further properties of [filter] *)
Module FilterMore.
Import Filter Ref.

Section FilterMoreFacts.
Variables T E : Type.
Variable predicate : T -> nat -> result E bool.

Local Abbreviation state := (FilterSubscriber T E).
Local Abbreviation run := (Filter.run predicate).
Local Abbreviation handle := (Filter.handle predicate).
Local Abbreviation Tidy := (Ref.Tidy predicate).

Lemma delivered_app (l1 l2 : list (notification T E)) :
  delivered (l1 ++ l2) = delivered l1 ++ delivered l2.
Proof.
  induction l1 as [|[v|e|] l1 IH]; simpl; [reflexivity| |exact IH|exact IH].
  now rewrite IH.
Qed.

Lemma delivered_values (vs : list T) :
  delivered (map (@Next T E) vs) = vs.
Proof. induction vs as [|v vs IH]; simpl; [reflexivity|now rewrite IH]. Qed.

Lemma filter_snoc (A : Type) (f : A -> bool) (l : list A) (x : A) :
  filter f (l ++ [x]) = filter f l ++ (if f x then [x] else []).
Proof. rewrite filter_app. reflexivity. Qed.

(** The calls of the predicate during a run: on a prefix of the values the
    source sent, each with its position as index. *)
Lemma calls_of_run (ns : list (notification T E)) : forall s : state,
  exists vs rest,
    delivered ns = vs ++ rest /\
    invoked (run ns s) = invoked s ++ indexed (count s) vs /\
    count (run ns s) = count s + length vs.
Proof.
  induction ns as [|n ns IH]; intros s.
  - exists [], []. simpl. now rewrite app_nil_r, Nat.add_0_r.
  - change (run (n :: ns) s) with (run ns (handle n s)).
    destruct (isStopped s) eqn:Hs.
    + rewrite FilterSpec.filter_stopped_handle by exact Hs.
      rewrite FilterSpec.filter_stopped_run by exact Hs.
      exists [], (delivered (n :: ns)). simpl.
      now rewrite app_nil_r, Nat.add_0_r.
    + destruct n as [v|e|]; simpl handle.
      * destruct (IH (next predicate v s)) as (vs & rest & Hd & Hi & Hc).
        exists (v :: vs), rest. simpl. rewrite Hd, Hi, Hc.
        unfold next, _next. rewrite Hs.
        destruct (predicate v (count s)) as [[|]|err]; simpl;
          rewrite <- ?app_assoc; simpl; repeat split; lia.
      * exists [], (delivered ns).
        rewrite FilterSpec.filter_stopped_run
          by (unfold error; now rewrite Hs).
        unfold error; rewrite Hs; simpl.
        now rewrite app_nil_r, Nat.add_0_r.
      * exists [], (delivered ns).
        rewrite FilterSpec.filter_stopped_run
          by (unfold complete; now rewrite Hs).
        unfold complete; rewrite Hs; simpl.
        now rewrite app_nil_r, Nat.add_0_r.
Qed.

Lemma Tidy_init : Tidy init.
Proof.
  split; [reflexivity|]. split; [|discriminate].
  exists []. repeat split. now left.
Qed.

Lemma Tidy_handle (n : notification T E) (s : state) :
  Tidy s -> Tidy (handle n s).
Proof.
  intros HT. destruct (isStopped s) eqn:Hs.
  { now rewrite FilterSpec.filter_stopped_handle. }
  destruct HT as (Hdel & (tail & Hout & Htail & Hlive) & Hdead).
  destruct (Subscriber.isStopped (destination s)) eqn:Hd.
  { rewrite Hdead in Hs by reflexivity. discriminate. }
  rewrite (Hlive eq_refl), app_nil_r in Hout. clear tail Htail Hlive Hdead.
  destruct s as [c st [ds dl] inv]. unfold output in *. simpl in *. subst ds st.
  destruct n as [v|e|]; simpl.
  - unfold next, _next; simpl.
    destruct (predicate v c) as [[|]|err] eqn:Hp;
      unfold to_destination, Subscriber.next, Subscriber.error, Ref.Tidy,
        output; simpl;
      rewrite ?delivered_app, filter_snoc, map_app; unfold accepted, truthy;
        simpl; rewrite Hp; simpl.
    + split; [now rewrite Hdel|]. split; [|discriminate].
      exists []. rewrite app_nil_r. split; [|split; [now left|reflexivity]].
      rewrite Hout at 1. now rewrite map_app.
    + rewrite app_nil_r. split; [exact Hdel|]. split; [|discriminate].
      exists []. rewrite app_nil_r. split; [exact Hout|]. split; [now left|auto].
    + rewrite !app_nil_r. split; [exact Hdel|]. split; [|reflexivity].
      exists [Error err]. split; [now rewrite Hout at 1|].
      split; [right; left; now exists err | discriminate].
  - unfold error, _error, unsubscribe, to_destination, Subscriber.error,
      Ref.Tidy, output; simpl.
    rewrite delivered_app; simpl. rewrite app_nil_r.
    split; [exact Hdel|]. split; [|reflexivity].
    exists [Error e]. split; [now rewrite Hout at 1|].
    split; [right; left; now exists e | discriminate].
  - unfold complete, _complete, unsubscribe, to_destination,
      Subscriber.complete, Ref.Tidy, output; simpl.
    rewrite delivered_app; simpl. rewrite app_nil_r.
    split; [exact Hdel|]. split; [|reflexivity].
    exists [Complete]. split; [now rewrite Hout at 1|].
    split; [right; now right | discriminate].
Qed.

Lemma Tidy_run (ns : list (notification T E)) : forall s : state,
  Tidy s -> Tidy (run ns s).
Proof.
  induction ns as [|n ns IH]; intros s H; simpl; [exact H|].
  apply IH. now apply Tidy_handle.
Qed.
End FilterMoreFacts.

(** X1: in every run, whatever the source sends, the predicate has been called
    on a prefix of the values sent, in their order, the n-th call with index
    n-1, and [count] is the number of calls. *)
Theorem filter_calls_follow_the_source :
  forall (T E : Type) (predicate : T -> nat -> result E bool)
         (ns : list (notification T E)),
  exists vs rest : list T,
    delivered ns = vs ++ rest /\
    invoked (Filter.run predicate ns init) = indexed 0 vs /\
    count (Filter.run predicate ns init) = length vs.
Proof.
  intros T E predicate ns.
  destruct (calls_of_run predicate ns init) as (vs & rest & H1 & H2 & H3).
  exists vs, rest. auto.
Qed.

(** X2: in every run, the values delivered downstream are exactly the values
    of the calls on which the predicate returned a truthy value, in the order
    of the calls. *)
Theorem filter_delivers_exactly_the_accepted :
  forall (T E : Type) (predicate : T -> nat -> result E bool)
         (ns : list (notification T E)),
    delivered (output (Filter.run predicate ns init)) =
      map fst (filter (accepted predicate)
                      (invoked (Filter.run predicate ns init))).
Proof.
  intros T E predicate ns.
  destruct (@Tidy_run T E predicate ns init (@Tidy_init T E predicate))
    as [H _].
  exact H.
Qed.


(** X4: on values on which the predicate does not raise, followed by the
    completion or an error of the source, the filter delivers the passing
    values and then that same terminal notification, and ignores whatever the
    source sends afterwards. *)
Theorem filter_passes_the_terminal_on :
  forall (T E : Type) (predicate : T -> nat -> result E bool)
         (xs : list T) (n : notification T E) (later : list (notification T E)),
    total_on predicate 0 xs ->
    (forall v, n <> Next v) ->
    output (Filter.run predicate (map Next xs ++ n :: later) init) =
      map Next (passing predicate 0 xs) ++ [n].
Proof.
  intros T E predicate xs n later Ht Hn.
  rewrite FilterSpec.filter_run_app.
  rewrite FilterSpec.filter_run_values by (simpl; auto). simpl.
  destruct n as [v|e|].
  - now elim (Hn v).
  - now rewrite FilterSpec.filter_stopped_run.
  - now rewrite FilterSpec.filter_stopped_run.
Qed.

Lemma filter_passes_the_terminal_on_witness :
  total_on Demo.even_position 0 [10; 11; 12] /\
  (forall v : nat, @Complete nat nat <> Next v) /\
  output (Filter.run Demo.even_position
            (map Next [10; 11; 12] ++ Complete :: [Next 14]) init) =
    [Next 10; Next 12; Complete].
Proof.
  assert (Ht : total_on Demo.even_position 0 [10; 11; 12])
    by (simpl; repeat split; eexists; reflexivity).
  assert (Hn : forall v : nat, @Complete nat nat <> Next v)
    by (intros v; discriminate).
  split; [exact Ht|]. split; [exact Hn|].
  exact (filter_passes_the_terminal_on Demo.even_position [10; 11; 12]
           [Next 14] Ht Hn).
Defined.

End FilterMore.

(** * Two [filter] operators in a row *)
Module FilterChainSpec.
Import Filter.

Section FilterChainFacts.
Variables T E : Type.
Variables first second : T -> nat -> result E bool.

Local Abbreviation chain_run := (FilterChain.run first second).

Lemma chain_run_app (l1 l2 : list (notification T E)) (s : FilterChain.Chain T E) :
  chain_run (l1 ++ l2) s = chain_run l2 (chain_run l1 s).
Proof. apply fold_left_app. Qed.

Lemma chain_stopped_run (ns : list (notification T E)) (s : FilterChain.Chain T E) :
  FilterChain.isStopped s = true -> chain_run ns s = s.
Proof.
  induction ns as [|n ns IH]; intros H; [reflexivity|].
  change (chain_run (n :: ns) s)
    with (chain_run ns (FilterChain.handle first second n s)).
  unfold FilterChain.handle. rewrite H. now apply IH.
Qed.

(** Values on which neither predicate raises: the upstream subscriber counts
    them all, the downstream one is driven by those that pass [first]. *)
Lemma chain_run_values (xs : list T) : forall s : FilterChain.Chain T E,
  FilterChain.isStopped s = false ->
  isStopped (FilterChain.destination s) = false ->
  Subscriber.isStopped (destination (FilterChain.destination s)) = false ->
  total_on first (FilterChain.count s) xs ->
  total_on second (count (FilterChain.destination s))
           (passing first (FilterChain.count s) xs) ->
  chain_run (map Next xs) s =
    FilterChain.mkChain
      (FilterChain.count s + length xs) false
      (Filter.run second (map Next (passing first (FilterChain.count s) xs))
                  (FilterChain.destination s)).
Proof.
  induction xs as [|x xs IH]; intros s Hs Hi Hd H1 H2.
  - destruct s; simpl in *. subst. now rewrite Nat.add_0_r.
  - destruct H1 as [[b Hb] H1].
    change (chain_run (map Next (x :: xs)) s)
      with (chain_run (map Next xs) (FilterChain.handle first second (Next x) s)).
    unfold FilterChain.handle. rewrite Hs. unfold FilterChain._next.
    simpl passing in *. unfold truthy in *. rewrite Hb in *.
    destruct b.
    + destruct H2 as [[b' Hb'] H2].
      assert (Hstep : next second x (FilterChain.destination s) =
                      Filter.run second (map Next [x]) (FilterChain.destination s))
        by reflexivity.
      unfold FilterChain.to_destination; simpl.
      rewrite Hi.
      assert (Hrun : Filter.run second (map Next [x]) (FilterChain.destination s) =
                     mkFilter (count (FilterChain.destination s) + 1) false
                       (Subscriber.mk false
                          (received (destination (FilterChain.destination s))
                           ++ map Next (passing second
                                          (count (FilterChain.destination s)) [x])))
                       (invoked (FilterChain.destination s)
                        ++ indexed (count (FilterChain.destination s)) [x])).
      { apply FilterSpec.filter_run_values;
          [exact Hi | exact Hd | simpl; split; [now exists b' | exact I]]. }
      rewrite Hstep, Hrun. simpl isStopped.
      rewrite IH; simpl; auto.
      * f_equal. lia.
      * now rewrite Nat.add_1_r.
    + rewrite IH; simpl; auto. f_equal. lia.
Qed.
End FilterChainFacts.

(** X5: two filters in a row, on values on which neither predicate raises,
    followed by the completion: the output is the values that pass [first] and
    then [second], where the index given to [second] counts only the values
    that passed [first]; the completion is passed on. *)
Theorem filter_after_filter :
  forall (T E : Type) (first second : T -> nat -> result E bool) (xs : list T),
    total_on first 0 xs ->
    total_on second 0 (passing first 0 xs) ->
    FilterChain.output
      (FilterChain.run first second (map Next xs ++ [Complete])
                       FilterChain.init) =
      map Next (passing second 0 (passing first 0 xs)) ++ [Complete].
Proof.
  intros T E first second xs H1 H2.
  rewrite chain_run_app, chain_run_values by (simpl; auto).
  rewrite FilterSpec.filter_run_values by (simpl; auto).
  reflexivity.
Qed.

Lemma filter_after_filter_witness :
  total_on Demo.even_position 0 [10; 11; 12; 13; 14] /\
  total_on Demo.even_position 0 (passing Demo.even_position 0 [10; 11; 12; 13; 14]) /\
  FilterChain.output
    (FilterChain.run Demo.even_position Demo.even_position
       (map Next [10; 11; 12; 13; 14] ++ [Complete]) FilterChain.init) =
    [Next 10; Next 14; Complete].
Proof.
  assert (H1 : total_on Demo.even_position 0 [10; 11; 12; 13; 14])
    by (simpl; repeat split; eexists; reflexivity).
  assert (H2 : total_on Demo.even_position 0
                 (passing Demo.even_position 0 [10; 11; 12; 13; 14]))
    by (simpl; repeat split; eexists; reflexivity).
  split; [exact H1|]. split; [exact H2|].
  exact (filter_after_filter Demo.even_position Demo.even_position
           [10; 11; 12; 13; 14] H1 H2).
Defined.

End FilterChainSpec.

(** * Further properties of [sequenceEqual] *)
Module SequenceEqualMore.
Import SequenceEqual Ref.

Section SequenceEqualMoreFacts.
Variables T E : Type.
Variable strict_eq : T -> T -> bool.
Variable comparor : option (T -> T -> result E bool).

Local Abbreviation state := (SequenceEqualSubscriber T E).
Local Abbreviation handle := (SequenceEqual.handle strict_eq comparor).
Local Abbreviation run := (SequenceEqual.run strict_eq comparor).
Local Abbreviation equal_pair := (SequenceEqual.equal_pair strict_eq comparor).
Local Abbreviation verdict := (SequenceEqual.verdict strict_eq comparor).
Local Abbreviation examined := (Ref.examined strict_eq comparor).
Local Abbreviation pairwise_equal := (Ref.pairwise_equal strict_eq comparor).

Lemma collecting_init : Collecting (@init T E).
Proof. repeat split; now left. Qed.

(** Two sources that both complete: the run ends with the verdict. *)
Lemma output_is_verdict (xs ys : list T) (l : list (event T E)) :
  interleaving (primary xs) (secondary ys) l ->
  output (run l init) = verdict xs ys.
Proof.
  intros Hl.
  apply (@SequenceEqualSpec.collecting_verdict T E strict_eq comparor
           _ _ l Hl init xs ys collecting_init);
    simpl; auto; intros; discriminate.
Qed.

Lemma verdict_true_iff (xs : list T) : forall ys,
  verdict xs ys = [Next true; Complete] <-> pairwise_equal xs ys.
Proof.
  induction xs as [|x xs IH]; intros [|y ys]; simpl.
  - split; [constructor | reflexivity].
  - split; [discriminate | intros H; inversion H].
  - split; [discriminate | intros H; inversion H].
  - destruct (equal_pair (x, y)) as [[|]|e] eqn:Hxy.
    + rewrite IH. split.
      * intros H. now constructor.
      * intros H. now inversion H.
    + split; [discriminate|]. intros H. inversion H; subst. congruence.
    + split; [discriminate|]. intros H. inversion H; subst. congruence.
Qed.

Lemma verdict_symmetric (xs : list T) : forall ys,
  (forall x y, equal_pair (x, y) = equal_pair (y, x)) ->
  verdict xs ys = verdict ys xs.
Proof.
  induction xs as [|x xs IH]; intros [|y ys] Hsym; simpl; try reflexivity.
  rewrite (Hsym y x).
  destruct (equal_pair (x, y)) as [[|]|e]; auto.
Qed.

(** ** Which pairs are compared *)

Lemma examined_nil_r (xs : list T) : examined xs [] = [].
Proof. destruct xs; reflexivity. Qed.

Lemma examined_cons (x y : T) (xs ys : list T) :
  examined (x :: xs) (y :: ys) =
    (x, y) :: match equal_pair (x, y) with
              | Ok true => examined xs ys
              | _ => []
              end.
Proof. reflexivity. Qed.

Lemma examined_one_empty (a b : list T) :
  a = [] \/ b = [] -> examined a b = [].
Proof. intros [-> | ->]; [reflexivity | apply examined_nil_r]. Qed.

Ltac frozen := rewrite SequenceEqualSpec.stopped_run by reflexivity; simpl.

(** From a [Collecting] state, whatever the order in which the notifications
    still owed arrive, the pairs compared from then on are those a comparison
    from the front examines on the buffered values followed by the values
    still to come. *)
Lemma collecting_examined (p q l : list (event T E)) :
  interleaving p q l ->
  forall (s : state) (xs ys : list T),
    Collecting s ->
    p = pending_primary (isStopped s) xs ->
    q = pending_secondary (compareToStopped s) ys ->
    (isStopped s = true -> xs = []) ->
    (compareToStopped s = true -> ys = []) ->
    compared (run l s) = compared s ++ examined (_a s ++ xs) (_b s ++ ys).
Proof.
  induction 1 as [|e p q l Hl IH|e p q l Hl IH];
    intros s xs ys (Hd & Hout & Hone & Hoc & Hboth) Hp Hq Hxs Hys.
  - apply SequenceEqualSpec.pending_primary_nil in Hp.
    apply SequenceEqualSpec.pending_secondary_nil in Hq.
    rewrite Hp, Hq in Hboth. discriminate.
  - apply SequenceEqualSpec.pending_primary_cons in Hp. destruct Hp as [Hst Hp].
    rewrite Hst in *. simpl in Hoc. clear Hxs Hboth.
    apply SequenceEqualSpec.primary_inv in Hp.
    destruct Hp as [(-> & -> & ->) | (x & xs' & -> & -> & ->)].
    + change (run (PComplete :: l) s) with (run l (complete s)).
      unfold complete. rewrite Hst. unfold _complete.
      simpl _oneComplete. rewrite Hoc.
      destruct (compareToStopped s) eqn:Hcs.
      * rewrite SequenceEqualSpec.emit_active by exact Hd. frozen.
        rewrite (Hys eq_refl), !app_nil_r.
        now rewrite examined_one_empty, app_nil_r.
      * apply (IH (set_oneComplete true (set_isStopped true s)) [] ys);
          simpl; try rewrite Hcs; auto.
        repeat split; simpl; auto.
    + change (run (PNext x :: l) s)
        with (run l (next strict_eq comparor x s)).
      unfold next. rewrite Hst. unfold _next. rewrite Hoc.
      destruct (compareToStopped s && (length (_b s) =? 0)) eqn:Hg.
      * apply andb_prop in Hg. destruct Hg as [Hcs Hb].
        rewrite SequenceEqualSpec.emit_active by exact Hd. frozen.
        apply Nat.eqb_eq, length_zero_iff_nil in Hb.
        rewrite Hb, (Hys Hcs). simpl app.
        now rewrite examined_nil_r, app_nil_r.
      * rewrite SequenceEqualSpec.push_a by assumption.
        destruct (_b s) as [|y b'] eqn:Hb.
        -- simpl in Hg. rewrite andb_true_r in Hg.
           rewrite (IH (set_buffers (_a s ++ [x]) [] s) xs' ys).
           ++ simpl. now rewrite <- app_assoc.
           ++ repeat split; simpl; auto;
                [now right | now rewrite Hoc, Hst, Hg | now rewrite Hst].
           ++ simpl. now rewrite Hst.
           ++ exact Hq.
           ++ simpl. rewrite Hst. intros; discriminate.
           ++ exact Hys.
        -- destruct Hone as [Ha | Hb']; [|congruence].
           rewrite Ha. simpl app. rewrite ?examined_cons.
           destruct (equal_pair (x, y)) as [[|]|e] eqn:Hxy.
           ++ match goal with |- compared (run l ?s') = _ =>
                rewrite (IH s' xs' ys) end.
              ** simpl. now rewrite <- app_assoc.
              ** repeat split; simpl; auto;
                   [now left | now rewrite Hoc, Hst | now rewrite Hst].
              ** simpl. now rewrite Hst.
              ** exact Hq.
              ** simpl. rewrite Hst. intros; discriminate.
              ** exact Hys.
           ++ now frozen.
           ++ now frozen.
  - apply SequenceEqualSpec.pending_secondary_cons in Hq.
    destruct Hq as [Hcs Hq].
    rewrite Hcs in *. rewrite orb_false_r in Hoc. clear Hys Hboth.
    apply SequenceEqualSpec.secondary_inv in Hq.
    destruct Hq as [(-> & -> & ->) | (y & ys' & -> & -> & ->)].
    + change (run (SComplete :: l) s)
        with (run l (compareTo_complete s)).
      unfold compareTo_complete. rewrite Hcs. unfold _complete.
      simpl _oneComplete. rewrite Hoc.
      destruct (isStopped s) eqn:Hst.
      * rewrite SequenceEqualSpec.emit_active by exact Hd. frozen.
        rewrite (Hxs eq_refl), !app_nil_r.
        now rewrite examined_one_empty, app_nil_r.
      * apply (IH (set_oneComplete true (set_compareToStopped true s)) xs []);
          simpl; try rewrite Hst; auto.
        repeat split; simpl; auto; now rewrite Hst.
    + change (run (SNext y :: l) s)
        with (run l (compareTo_next strict_eq comparor y s)).
      unfold compareTo_next. rewrite Hcs. unfold nextB. rewrite Hoc.
      destruct (isStopped s && (length (_a s) =? 0)) eqn:Hg.
      * apply andb_prop in Hg. destruct Hg as [Hst Ha].
        rewrite SequenceEqualSpec.emit_active by exact Hd. frozen.
        apply Nat.eqb_eq, length_zero_iff_nil in Ha.
        rewrite Ha, (Hxs Hst). simpl app.
        now rewrite app_nil_r.
      * rewrite SequenceEqualSpec.push_b by assumption.
        destruct (_a s) as [|x a'] eqn:Ha.
        -- simpl in Hg. rewrite andb_true_r in Hg.
           rewrite (IH (set_buffers [] (_b s ++ [y]) s) xs ys').
           ++ simpl. now rewrite <- app_assoc.
           ++ repeat split; simpl; auto;
                [now left | now rewrite Hoc, Hcs, Hg | now rewrite Hcs, Hg].
           ++ exact Hp.
           ++ simpl. now rewrite Hcs.
           ++ exact Hxs.
           ++ simpl. rewrite Hcs. intros; discriminate.
        -- destruct Hone as [Ha' | Hb]; [congruence|].
           rewrite Hb. simpl app. rewrite ?examined_cons.
           destruct (equal_pair (x, y)) as [[|]|e] eqn:Hxy.
           ++ match goal with |- compared (run l ?s') = _ =>
                rewrite (IH s' xs ys') end.
              ** simpl. now rewrite <- app_assoc.
              ** repeat split; simpl; auto;
                   [now right | now rewrite Hoc, Hcs, orb_false_r
                   | now rewrite Hcs, andb_false_r].
              ** exact Hp.
              ** simpl. now rewrite Hcs.
              ** exact Hxs.
              ** simpl. rewrite Hcs. intros; discriminate.
           ++ now frozen.
           ++ now frozen.
Qed.

(** ** The drain loop on arbitrary buffers *)

Lemma to_destination_fields
      (f : Subscriber.t bool E -> Subscriber.t bool E) (s : state) :
  _a (to_destination f s) = _a s /\
  _b (to_destination f s) = _b s /\
  compared (to_destination f s) = compared s.
Proof.
  unfold to_destination.
  destruct (Subscriber.isStopped (destination s));
    [|destruct (Subscriber.isStopped (f (destination s)))];
    repeat split.
Qed.

Lemma emit_fields (v : bool) (s : state) :
  _a (emit v s) = _a s /\ _b (emit v s) = _b s /\
  compared (emit v s) = compared s.
Proof.
  unfold emit.
  destruct (to_destination_fields (@Subscriber.complete bool E)
              (to_destination (Subscriber.next v) s)) as (H1 & H2 & H3).
  destruct (to_destination_fields (Subscriber.next v) s) as (G1 & G2 & G3).
  rewrite H1, H2, H3. auto.
Qed.

Lemma loop_drains (a : list T) : forall (b : list T) (s : state),
  _a s = a -> _b s = b ->
  _a (checkValues_loop strict_eq comparor a b s) = skipn (length b) a /\
  _b (checkValues_loop strict_eq comparor a b s) = skipn (length a) b /\
  compared (checkValues_loop strict_eq comparor a b s) =
    compared s ++ combine a b.
Proof.
  induction a as [|x a' IH]; intros b s Ha Hb.
  - simpl. rewrite skipn_nil, app_nil_r. auto.
  - destruct b as [|y b'].
    + simpl. rewrite app_nil_r. auto.
    + simpl checkValues_loop. rewrite SequenceEqualSpec.areEqual_spec.
      simpl length. simpl skipn. simpl combine.
      set (s1 := record_compared x y (set_buffers a' b' s)).
      assert (H1 : _a s1 = a' /\ _b s1 = b' /\
                   compared s1 = compared s ++ [(x, y)]) by (repeat split).
      destruct H1 as (H1a & H1b & H1c).
      destruct (equal_pair (x, y)) as [[|]|e].
      * destruct (IH b' s1 H1a H1b) as (I1 & I2 & I3).
        rewrite I1, I2, I3, H1c, <- app_assoc. auto.
      * destruct (emit_fields false s1) as (F1 & F2 & F3).
        destruct (IH b' (emit false s1)) as (I1 & I2 & I3);
          [congruence | congruence |].
        rewrite I1, I2, I3, F3, H1c, <- app_assoc. auto.
      * destruct (to_destination_fields (Subscriber.error e) s1)
          as (F1 & F2 & F3).
        destruct (IH b' (to_destination (Subscriber.error e) s1))
          as (I1 & I2 & I3); [congruence | congruence |].
        rewrite I1, I2, I3, F3, H1c, <- app_assoc. auto.
Qed.

(** ** What a delivered [true] attests *)

Local Abbreviation Attested := (@Ref.Attested T E).

Lemma Attested_handle (hist : list (event T E)) (ev : event T E) (s : state) :
  SequenceEqual.Inv strict_eq comparor s ->
  Attested hist s -> Attested (hist ++ [ev]) (handle ev s).
Proof.
  intros [Hone [[(Hd & Hout & Heq) Hrec] | [(Hd1 & Hd2 & Hd3) Hs]]] [HA1 HA2].
  2: { rewrite SequenceEqualSpec.stopped_handle by assumption. split.
       - intros H. rewrite Hd1 in H. discriminate.
       - intros H. destruct (HA2 H). split; apply in_or_app; now left. }
  destruct (HA1 Hd) as [HP HS]. clear HA1 HA2.
  assert (Keep : Attested (hist ++ [ev]) s).
  { split.
    - intros _. split; intros; apply in_or_app; left; auto.
    - unfold output in *. rewrite Hout. intros []. }
  assert (NoTrue : forall s' : state,
             Subscriber.isStopped (destination s') = true ->
             ~ In (Next true) (output s') ->
             Attested (hist ++ [ev]) s').
  { intros s' H1 H2. split.
    - intros H. rewrite H1 in H. discriminate.
    - intros H. now elim H2. }
  assert (Same : forall s' : state,
             isStopped s' = isStopped s ->
             compareToStopped s' = compareToStopped s ->
             output s' = [] ->
             Attested (hist ++ [ev]) s').
  { intros s' H1 H2 H3. split.
    - intros _. rewrite H1, H2.
      split; intros; apply in_or_app; left; auto.
    - rewrite H3. intros []. }
  unfold output in *.
  destruct ev; simpl.
  - unfold next. destruct (isStopped s) eqn:Hst; [exact Keep|].
    unfold _next. destruct (_oneComplete s && _).
    + rewrite SequenceEqualSpec.emit_active by exact Hd.
      apply NoTrue; [reflexivity|]. unfold output; simpl. rewrite Hout.
      simpl. intros [H | [H | []]]; discriminate.
    + rewrite SequenceEqualSpec.push_a by assumption.
      destruct (_b s) as [|y b'].
      * now apply Same.
      * destruct (SequenceEqual.equal_pair strict_eq comparor (v, y))
          as [[|]|e'].
        -- now apply Same.
        -- apply NoTrue; [reflexivity|]. unfold output; simpl. rewrite Hout.
           simpl. intros [H | [H | []]]; discriminate.
        -- apply NoTrue; [reflexivity|]. unfold output; simpl. rewrite Hout.
           simpl. intros [H | []]; discriminate.
  - unfold error. destruct (isStopped s) eqn:Hst; [exact Keep|].
    unfold _error. rewrite SequenceEqualSpec.raise_active by exact Hd.
    apply NoTrue; [reflexivity|]. unfold output; simpl. rewrite Hout.
    simpl. intros [H | []]; discriminate.
  - unfold complete. destruct (isStopped s) eqn:Hst; [exact Keep|].
    unfold _complete. simpl _oneComplete.
    unfold Recorded in Hrec. rewrite Hst in Hrec. simpl in Hrec.
    destruct (_oneComplete s).
    + rewrite SequenceEqualSpec.emit_active by exact Hd. split.
      * simpl. intros; discriminate.
      * intros _. split; apply in_or_app; [right; now left | left].
        apply HS; auto.
    + split.
      * simpl. intros _. split; [intros _ | intros _ H; discriminate].
        apply in_or_app; right; now left.
      * unfold output; simpl. rewrite Hout. intros [].
  - unfold compareTo_next.
    destruct (compareToStopped s) eqn:Hcs; [exact Keep|].
    unfold nextB. destruct (_oneComplete s && _).
    + rewrite SequenceEqualSpec.emit_active by exact Hd.
      apply NoTrue; [reflexivity|]. unfold output; simpl. rewrite Hout.
      simpl. intros [H | [H | []]]; discriminate.
    + rewrite SequenceEqualSpec.push_b by assumption.
      destruct (_a s) as [|x a'].
      * now apply Same.
      * destruct (SequenceEqual.equal_pair strict_eq comparor (x, v))
          as [[|]|e'].
        -- now apply Same.
        -- apply NoTrue; [reflexivity|]. unfold output; simpl. rewrite Hout.
           simpl. intros [H | [H | []]]; discriminate.
        -- apply NoTrue; [reflexivity|]. unfold output; simpl. rewrite Hout.
           simpl. intros [H | []]; discriminate.
  - unfold compareTo_error.
    destruct (compareToStopped s) eqn:Hcs; [exact Keep|].
    unfold error; simpl. destruct (isStopped s) eqn:Hst.
    + split.
      * simpl. intros _. rewrite Hst.
        split; [intros _ | intros _ H; discriminate].
        apply in_or_app; left; auto.
      * unfold output; simpl. rewrite Hout. intros [].
    + unfold _error. rewrite SequenceEqualSpec.raise_active by exact Hd.
      apply NoTrue; [reflexivity|]. unfold output; simpl. rewrite Hout.
      simpl. intros [H | []]; discriminate.
  - unfold compareTo_complete.
    destruct (compareToStopped s) eqn:Hcs; [exact Keep|].
    unfold _complete. simpl _oneComplete.
    unfold Recorded in Hrec. rewrite Hcs, orb_false_r in Hrec.
    destruct (_oneComplete s).
    + rewrite SequenceEqualSpec.emit_active by exact Hd. split.
      * simpl. intros; discriminate.
      * intros _. split; apply in_or_app; [left | right; now left].
        apply HP; auto.
    + split.
      * simpl. intros _. rewrite <- Hrec.
        split; [intros H; discriminate | intros _ _].
        apply in_or_app; right; now left.
      * unfold output; simpl. rewrite Hout. intros [].
Qed.

Lemma Attested_run (evs : list (event T E)) : Attested evs (run evs init).
Proof.
  induction evs as [|ev evs IH] using rev_ind.
  - split; [intros _; split; intros; discriminate | intros []].
  - rewrite SequenceEqualSpec.run_app. simpl.
    apply Attested_handle; [apply SequenceEqualSpec.Inv_reachable | exact IH].
Qed.

(** ** What the buffers hold while values arrive *)

Lemma skipn_one_empty (a b : list T) :
  a = [] \/ b = [] -> a = skipn (length b) a /\ b = skipn (length a) b.
Proof.
  intros [-> | ->]; simpl; rewrite ?skipn_nil; auto.
Qed.

Lemma combine_one_empty (a b : list T) :
  a = [] \/ b = [] -> combine a b = [].
Proof. intros [-> | ->]; [|destruct a]; reflexivity. Qed.

(** From a state in which neither source has terminated, values of the two
    sources that are found equal pair by pair leave the surplus of the longer
    side in its buffer, in order, and deliver nothing. *)
Lemma surplus_is_buffered (p q l : list (event T E)) :
  interleaving p q l ->
  forall (s : state) (xs ys : list T),
    p = map PNext xs -> q = map SNext ys ->
    Subscriber.isStopped (destination s) = false ->
    isStopped s = false -> compareToStopped s = false ->
    _oneComplete s = false -> one_empty s ->
    Forall (fun c => equal_pair c = Ok true)
           (combine (_a s ++ xs) (_b s ++ ys)) ->
    _a (run l s) = skipn (length (_b s ++ ys)) (_a s ++ xs) /\
    _b (run l s) = skipn (length (_a s ++ xs)) (_b s ++ ys) /\
    compared (run l s) = compared s ++ combine (_a s ++ xs) (_b s ++ ys) /\
    destination (run l s) = destination s.
Proof.
  induction 1 as [|e p q l Hl IH|e p q l Hl IH];
    intros s xs ys Hp Hq Hd Hst Hcs Hoc Hone Heq.
  - symmetry in Hp, Hq. apply map_eq_nil in Hp, Hq. subst xs ys.
    simpl. rewrite !app_nil_r.
    destruct (skipn_one_empty Hone) as [H1 H2].
    rewrite <- H1, <- H2.
    rewrite (combine_one_empty Hone), app_nil_r. auto.
  - destruct xs as [|x xs']; [discriminate|]. injection Hp as -> ->.
    change (run (PNext x :: l) s)
      with (run l (next strict_eq comparor x s)).
    unfold next. rewrite Hst. unfold _next. rewrite Hoc. simpl andb.
    rewrite SequenceEqualSpec.push_a by assumption.
    destruct (_b s) as [|y b'] eqn:Hb.
    + destruct (IH (set_buffers (_a s ++ [x]) [] s) xs' ys)
        as (I1 & I2 & I3 & I4); simpl; auto.
      * now right.
      * now rewrite <- app_assoc.
      * simpl in *. rewrite I1, I2, I3, I4, <- !app_assoc. auto.
    + destruct Hone as [Ha | Hb']; [|congruence].
      rewrite Ha in *. simpl app in *. simpl combine in Heq.
      inversion Heq as [|c cs Hxy Hrest]; subst.
      rewrite Hxy.
      match goal with |- _ (run l ?s') = _ /\ _ =>
        destruct (IH s' xs' ys) as (I1 & I2 & I3 & I4) end; simpl; auto.
      * now left.
      * simpl in *. rewrite I1, I2, I3, I4, <- !app_assoc. auto.
  - destruct ys as [|y ys']; [discriminate|]. injection Hq as -> ->.
    change (run (SNext y :: l) s)
      with (run l (compareTo_next strict_eq comparor y s)).
    unfold compareTo_next. rewrite Hcs. unfold nextB. rewrite Hoc. simpl andb.
    rewrite SequenceEqualSpec.push_b by assumption.
    destruct (_a s) as [|x a'] eqn:Ha.
    + destruct (IH (set_buffers [] (_b s ++ [y]) s) xs ys')
        as (I1 & I2 & I3 & I4); simpl; auto.
      * now left.
      * now rewrite <- app_assoc.
      * simpl in *. rewrite I1, I2, I3, I4, <- !app_assoc. auto.
    + destruct Hone as [Ha' | Hb]; [congruence|].
      rewrite Hb in *. simpl app in *. simpl combine in Heq.
      inversion Heq as [|c cs Hxy Hrest]; subst.
      rewrite Hxy.
      match goal with |- _ (run l ?s') = _ /\ _ =>
        destruct (IH s' xs ys') as (I1 & I2 & I3 & I4) end; simpl; auto.
      * now right.
      * simpl in *. rewrite I1, I2, I3, I4, <- !app_assoc. auto.
Qed.
End SequenceEqualMoreFacts.

Lemma verdict_default (T E : Type) (strict_eq : T -> T -> bool) (xs : list T) :
  forall ys,
    verdict strict_eq (@None (T -> T -> result E bool)) xs ys =
      [Next (sequence_eqb strict_eq xs ys); Complete].
Proof.
  induction xs as [|x xs IH]; intros [|y ys]; simpl; try reflexivity.
  unfold equal_pair; simpl. destruct (strict_eq x y); simpl; auto.
Qed.

(** X6: when both sources complete, whatever the order of their notifications,
    [true] is delivered exactly when the two sequences have the same length
    and every pair of values at the same position is found equal. *)
Theorem true_iff_pairwise_equal :
  forall (T E : Type) (strict_eq : T -> T -> bool)
         (comparor : option (T -> T -> result E bool))
         (xs ys : list T) (l : list (event T E)),
    interleaving (primary xs) (secondary ys) l ->
    (output (run strict_eq comparor l init) = [Next true; Complete] <->
     pairwise_equal strict_eq comparor xs ys).
Proof.
  intros T E strict_eq comparor xs ys l Hl.
  rewrite (output_is_verdict strict_eq comparor xs ys Hl).
  apply verdict_true_iff.
Qed.

(** X7: without a comparator, when both sources complete, the operator
    delivers one boolean and the completion, never an error, and the boolean
    is the equality of the two sequences under [===]. *)
Theorem default_equality_decides :
  forall (T E : Type) (strict_eq : T -> T -> bool)
         (xs ys : list T) (l : list (event T E)),
    interleaving (primary xs) (secondary ys) l ->
    output (run strict_eq None l init) =
      [Next (sequence_eqb strict_eq xs ys); Complete].
Proof.
  intros T E strict_eq xs ys l Hl.
  rewrite (output_is_verdict strict_eq None xs ys Hl).
  apply verdict_default.
Qed.

(** X9: with an equality that does not depend on the order of its arguments,
    comparing [xs] to [ys] and comparing [ys] to [xs] deliver the same thing,
    whatever the order of the notifications in either subscription. *)
Theorem swapping_the_sources :
  forall (T E : Type) (strict_eq : T -> T -> bool)
         (comparor : option (T -> T -> result E bool))
         (xs ys : list T) (l1 l2 : list (event T E)),
    (forall x y, equal_pair strict_eq comparor (x, y) =
                 equal_pair strict_eq comparor (y, x)) ->
    interleaving (primary xs) (secondary ys) l1 ->
    interleaving (primary ys) (secondary xs) l2 ->
    output (run strict_eq comparor l1 init) =
      output (run strict_eq comparor l2 init).
Proof.
  intros T E strict_eq comparor xs ys l1 l2 Hsym H1 H2.
  rewrite (output_is_verdict strict_eq comparor xs ys H1).
  rewrite (output_is_verdict strict_eq comparor ys xs H2).
  now apply verdict_symmetric.
Qed.

(** X8: when both sources complete, whatever the order of their
    notifications, the pairs whose equality is evaluated are the i-th value of
    the primary source with the i-th value of the secondary one, for
    i = 1, 2, ... in this order, each once, up to and including the first pair
    that is not found equal, and none beyond the shorter sequence. *)
Theorem comparisons_are_aligned :
  forall (T E : Type) (strict_eq : T -> T -> bool)
         (comparor : option (T -> T -> result E bool))
         (xs ys : list T) (l : list (event T E)),
    interleaving (primary xs) (secondary ys) l ->
    compared (run strict_eq comparor l init) = examined strict_eq comparor xs ys.
Proof.
  intros T E strict_eq comparor xs ys l Hl.
  apply (@collecting_examined T E strict_eq comparor _ _ l Hl init xs ys
           (@collecting_init T E));
    simpl; auto; intros; discriminate.
Qed.

(** X10: in every run, whatever the sources send, [true] is delivered only
    after both sources have completed. *)
Theorem true_needs_both_completions :
  forall (T E : Type) (strict_eq : T -> T -> bool)
         (comparor : option (T -> T -> result E bool))
         (evs : list (event T E)),
    In (Next true) (output (run strict_eq comparor evs init)) ->
    In PComplete evs /\ In SComplete evs.
Proof.
  intros T E strict_eq comparor evs H.
  destruct (Attested_run strict_eq comparor evs) as [_ HA]. now apply HA.
Qed.

(** X11: after any run that has delivered nothing and in which the primary
    source has not completed, an error of the primary source, or of the
    secondary source if that one has not terminated either, is the only thing
    the downstream observer ever receives. *)
Theorem source_error_is_forwarded :
  forall (T E : Type) (strict_eq : T -> T -> bool)
         (comparor : option (T -> T -> result E bool))
         (evs later : list (event T E)) (e : E),
    Subscriber.isStopped (destination (run strict_eq comparor evs init)) = false ->
    isStopped (run strict_eq comparor evs init) = false ->
    output (run strict_eq comparor (evs ++ PError e :: later) init) = [Error e] /\
    (compareToStopped (run strict_eq comparor evs init) = false ->
     output (run strict_eq comparor (evs ++ SError e :: later) init) = [Error e]).
Proof.
  intros T E strict_eq comparor evs later e Hd Hst.
  assert (Hout : output (run strict_eq comparor evs init) = []).
  { destruct (SequenceEqualSpec.Inv_reachable strict_eq comparor evs)
      as [_ [[(_ & H & _) _] | [(H & _) _]]]; [exact H|].
    rewrite Hd in H. discriminate. }
  split; [|intros Hcs]; rewrite SequenceEqualSpec.run_app;
    change (run strict_eq comparor (?ev :: later) ?s)
      with (run strict_eq comparor later (handle strict_eq comparor ev s));
    simpl handle; unfold compareTo_error, error, _error; simpl;
      rewrite ?Hcs, Hst; simpl;
        rewrite SequenceEqualSpec.raise_active by exact Hd;
        rewrite SequenceEqualSpec.stopped_run by reflexivity;
        unfold output in *; simpl; now rewrite Hout.
Qed.

(** X12: [checkValues], from any state, shifts values off both buffers until
    one of them is empty and evaluates the equality on every pair it shifts
    off, also on those that follow an unequal pair. *)
Theorem checkValues_compares_every_pair :
  forall (T E : Type) (strict_eq : T -> T -> bool)
         (comparor : option (T -> T -> result E bool))
         (s : SequenceEqualSubscriber T E),
    _a (checkValues strict_eq comparor s) = skipn (length (_b s)) (_a s) /\
    _b (checkValues strict_eq comparor s) = skipn (length (_a s)) (_b s) /\
    compared (checkValues strict_eq comparor s) =
      compared s ++ combine (_a s) (_b s).
Proof.
  intros. unfold checkValues. now apply loop_drains.
Qed.

(** X14: while neither source has terminated and the values are found equal
    pair by pair, whatever their order of arrival, the buffers hold exactly the
    values of the side that is ahead which have no partner yet, in order; every
    pair has been compared once and nothing has been delivered. *)
Theorem buffers_hold_the_surplus :
  forall (T E : Type) (strict_eq : T -> T -> bool)
         (comparor : option (T -> T -> result E bool))
         (xs ys : list T) (l : list (event T E)),
    interleaving (map PNext xs) (map SNext ys) l ->
    Forall (fun c => equal_pair strict_eq comparor c = Ok true) (combine xs ys) ->
    _a (run strict_eq comparor l init) = skipn (length ys) xs /\
    _b (run strict_eq comparor l init) = skipn (length xs) ys /\
    compared (run strict_eq comparor l init) = combine xs ys /\
    output (run strict_eq comparor l init) = [].
Proof.
  intros T E strict_eq comparor xs ys l Hl Heq.
  destruct (@surplus_is_buffered T E strict_eq comparor _ _ l Hl init xs ys)
    as (H1 & H2 & H3 & H4); simpl; auto.
  - now left.
  - unfold output. rewrite H4. auto.
Qed.

Lemma buffers_hold_the_surplus_witness :
  interleaving (map PNext [1; 2; 3]) (map SNext [1]) Demo.primary_ahead /\
  Forall (fun c => equal_pair Nat.eqb
                     (@None (nat -> nat -> result nat bool)) c = Ok true)
         (combine [1; 2; 3] [1]) /\
  _a (run Nat.eqb (@None (nat -> nat -> result nat bool))
          Demo.primary_ahead init) = [2; 3].
Proof.
  assert (H : interleaving (map PNext [1; 2; 3]) (map SNext [1])
                           Demo.primary_ahead)
    by (repeat (apply il_left || apply il_right); apply il_nil).
  assert (Heq : Forall (fun c => equal_pair Nat.eqb
                          (@None (nat -> nat -> result nat bool)) c = Ok true)
                       (combine [1; 2; 3] [1]))
    by (repeat constructor).
  split; [exact H|]. split; [exact Heq|].
  exact (proj1 (@buffers_hold_the_surplus nat nat Nat.eqb None
                  [1; 2; 3] [1] Demo.primary_ahead H Heq)).
Defined.

Lemma oneComplete_records_a_completion_witness :
  Subscriber.isStopped (destination Demo.awaiting_primary) = false /\
  _oneComplete Demo.awaiting_primary =
    isStopped Demo.awaiting_primary || compareToStopped Demo.awaiting_primary.
Proof.
  split; [reflexivity|].
  exact (@SequenceEqualSpec.oneComplete_records_a_completion nat nat Nat.eqb
           None [SNext 3; SComplete] eq_refl).
Defined.

Lemma true_iff_pairwise_equal_witness :
  interleaving (primary [1; 2]) (secondary [1; 2; 3]) Demo.alternating /\
  ~ pairwise_equal Nat.eqb (@None (nat -> nat -> result nat bool))
      [1; 2] [1; 2; 3].
Proof.
  assert (H : interleaving (primary [1; 2]) (secondary [1; 2; 3])
                           Demo.alternating)
    by (repeat (apply il_left || apply il_right); apply il_nil).
  split; [exact H|]. intros Hp.
  apply (proj2 (@true_iff_pairwise_equal nat nat Nat.eqb None
                  [1; 2] [1; 2; 3] Demo.alternating H)) in Hp.
  discriminate Hp.
Defined.

Lemma default_equality_decides_witness :
  interleaving (primary [1; 2]) (secondary [1; 2; 3]) Demo.alternating /\
  output (run Nat.eqb (@None (nat -> nat -> result nat bool))
              Demo.alternating init) = [Next false; Complete].
Proof.
  assert (H : interleaving (primary [1; 2]) (secondary [1; 2; 3])
                           Demo.alternating)
    by (repeat (apply il_left || apply il_right); apply il_nil).
  split; [exact H|].
  exact (@default_equality_decides nat nat Nat.eqb [1; 2] [1; 2; 3]
           Demo.alternating H).
Defined.

Lemma comparisons_are_aligned_witness :
  interleaving (primary [1; 2]) (secondary [1; 2; 3]) Demo.alternating /\
  compared (run Nat.eqb (@None (nat -> nat -> result nat bool))
                Demo.alternating init) = [(1, 1); (2, 2)].
Proof.
  assert (H : interleaving (primary [1; 2]) (secondary [1; 2; 3])
                           Demo.alternating)
    by (repeat (apply il_left || apply il_right); apply il_nil).
  split; [exact H|].
  exact (@comparisons_are_aligned nat nat Nat.eqb None [1; 2] [1; 2; 3]
           Demo.alternating H).
Defined.

Lemma swapping_the_sources_witness :
  (forall x y : nat,
      equal_pair Nat.eqb (@None (nat -> nat -> result nat bool)) (x, y) =
      equal_pair Nat.eqb None (y, x)) /\
  interleaving (primary [1; 2]) (secondary [1; 2; 3]) Demo.alternating /\
  interleaving (primary [1; 2; 3]) (secondary [1; 2]) Demo.swapped /\
  output (run Nat.eqb (@None (nat -> nat -> result nat bool))
              Demo.alternating init) =
    output (run Nat.eqb None Demo.swapped init).
Proof.
  assert (Hs : forall x y : nat,
             equal_pair Nat.eqb (@None (nat -> nat -> result nat bool)) (x, y) =
             equal_pair Nat.eqb None (y, x))
    by (intros x y; unfold equal_pair; simpl; now rewrite Nat.eqb_sym).
  assert (H1 : interleaving (primary [1; 2]) (secondary [1; 2; 3])
                            Demo.alternating)
    by (repeat (apply il_left || apply il_right); apply il_nil).
  assert (H2 : interleaving (primary [1; 2; 3]) (secondary [1; 2])
                            Demo.swapped)
    by (repeat (apply il_left || apply il_right); apply il_nil).
  split; [exact Hs|]. split; [exact H1|]. split; [exact H2|].
  exact (@swapping_the_sources nat nat Nat.eqb None [1; 2] [1; 2; 3]
           Demo.alternating Demo.swapped Hs H1 H2).
Defined.

Lemma true_needs_both_completions_witness :
  In (Next true)
     (output (run Nat.eqb (@None (nat -> nat -> result nat bool))
                  Demo.equal_sources init)) /\
  In PComplete Demo.equal_sources /\ In SComplete Demo.equal_sources.
Proof.
  assert (H : In (Next true)
                 (output (run Nat.eqb (@None (nat -> nat -> result nat bool))
                              Demo.equal_sources init)))
    by (left; reflexivity).
  split; [exact H|].
  exact (@true_needs_both_completions nat nat Nat.eqb None
           Demo.equal_sources H).
Defined.

Lemma source_error_is_forwarded_witness :
  Subscriber.isStopped
    (destination (run Nat.eqb (@None (nat -> nat -> result nat bool))
                      Demo.one_pair init)) = false /\
  isStopped (run Nat.eqb (@None (nat -> nat -> result nat bool))
                 Demo.one_pair init) = false /\
  output (run Nat.eqb (@None (nat -> nat -> result nat bool))
              (Demo.one_pair ++ PError 4 :: [SNext 2; SComplete]) init) =
    [Error 4].
Proof.
  split; [reflexivity|]. split; [reflexivity|].
  exact (proj1 (@source_error_is_forwarded nat nat Nat.eqb None Demo.one_pair
                  [SNext 2; SComplete] 4 eq_refl eq_refl)).
Defined.

End SequenceEqualMore.
